(** * LocalHashAndJoinWith: the local hash join instruction of gleam

    Shallow embedding of [instruction/local_hash_and_join_with.go] and the
    properties of its build and probe phases.

    Conventions of the embedding.
    - A Go [[]byte] is a [list byte]; [string(b)] is [string_of_list_byte b].
    - An [io.Reader] is the sequence of frames (message payloads) that are
      still unread on it; reading a frame removes it from the front.
    - The [io.Writer] is the sequence of frames written so far, oldest first.
    - [map[string][]interface{}] is a [gmap string Row].
    - The closures given to [util.ProcessMessage] update the captured
      [hashmap] and the writer: both live in the [World] threaded by the
      state monad [M], together with what was printed on standard output and
      a chronological trace of the observable actions. *)

From Stdlib Require Import Strings.Byte.
From stdpp Require Import gmap strings list.

Abbreviation bytes := (list byte).

(** Go's [(value, err)] results. *)
Inductive result (E A : Type) : Type :=
| Ok (a : A)
| Err (e : E).
Arguments Ok {E A} a.
Arguments Err {E A} e.

(** The two input streams of the instruction. *)
Inductive stream : Type :=
| leftStream
| rightStream.

#[global] Instance stream_eq_dec : EqDecision stream.
Proof. solve_decision. Defined.

(** Observable actions, in the order in which the code performs them. *)
Inductive event : Type :=
| EvRead (r : stream) (input : bytes)   (* a frame of [r] handed to the handler *)
| EvDiscard (r : stream) (n : nat)      (* [io.Copy(ioutil.Discard, r)] swallowed [n] frames *)
| EvStore (key : string)                (* [hashmap[key] = vals] *)
| EvLookup (key : string)               (* [hashmap[key]] *)
| EvWrite (encoded : bytes).            (* a frame put on the writer *)

(** An event of the build side: a read of the left stream or a store. *)
Definition build_event (e : event) : bool :=
  match e with
  | EvRead leftStream _ | EvDiscard leftStream _ | EvStore _ => true
  | _ => false
  end.

(** An event of the probe side: a read or drain of the right stream, a
    lookup in the table, a write on the output. *)
Definition probe_event (e : event) : bool :=
  match e with
  | EvRead rightStream _ | EvDiscard rightStream _ | EvLookup _ | EvWrite _ => true
  | _ => false
  end.

(** ** A reference codec

    An instance of the codec interface on which the instruction can be run:
    a field is one byte, and the frame of a row is a count byte followed by
    the fields. Rows of more than 255 fields have no encoding, and a frame
    whose count byte disagrees with its length is malformed. Key positions
    are zero-based. *)
Module CountCodec.

Inductive CodecError : Type :=
| TooWide      (* the row has more than 255 fields *)
| NoHeader     (* the frame is empty *)
| BadCount     (* the count byte is not the number of fields *)
| BadIndex.    (* a key position is outside the row *)

Definition EncodeRow (row : list byte) : result CodecError bytes :=
  match Byte.of_nat (length row) with
  | Some n => Ok (n :: row)
  | None => Err TooWide
  end.

Definition DecodeRow (input : bytes) : result CodecError (list byte) :=
  match input with
  | [] => Err NoHeader
  | n :: fields =>
      if Nat.eqb (Byte.to_nat n) (length fields) then Ok fields else Err BadCount
  end.

Fixpoint keysOf (fields : list byte) (indexes : list Z) : option (list byte) :=
  match indexes with
  | [] => Some []
  | i :: rest =>
      if Z.ltb i 0 then None
      else
        match fields !! Z.to_nat i, keysOf fields rest with
        | Some x, Some xs => Some (x :: xs)
        | _, _ => None
        end
  end.

Fixpoint valuesOf (pos : Z) (fields : list byte) (indexes : list Z) : list byte :=
  match fields with
  | [] => []
  | x :: rest =>
      if existsb (Z.eqb pos) indexes then valuesOf (pos + 1) rest indexes
      else x :: valuesOf (pos + 1) rest indexes
  end.

Definition DecodeRowKeysValues (input : bytes) (indexes : list Z)
    : result CodecError (list byte * list byte) :=
  match DecodeRow input with
  | Err err => Err err
  | Ok fields =>
      match keysOf fields indexes with
      | None => Err BadIndex
      | Some keys => Ok (keys, valuesOf 0 fields indexes)
      end
  end.

(** The frame of a row that has an encoding. *)
Definition frame (row : list byte) : bytes :=
  match EncodeRow row with
  | Ok encoded => encoded
  | Err _ => []
  end.

(** The table key of a one-field key: the encoding of the key, as a string. *)
Definition keyOf (k : byte) : string := String.string_of_list_byte (frame [k]).

(** A frame whose count byte announces five fields and that carries one. *)
Definition malformed : bytes := [x05; x00].

(** Scenario A of the specification: key position 0,
    build = [("a",1); ("b",2)], probe = [("a",10); ("c",30)]. *)
Definition buildA : list bytes := [frame ["a"; x01]; frame ["b"; x02]]%byte.
Definition probeA : list bytes := [frame ["a"; x0a]; frame ["c"; x1e]]%byte.

(** Scenario B: a duplicate key on the build side. *)
Definition buildB : list bytes := [frame ["a"; x01]; frame ["a"; x02]]%byte.
Definition probeB : list bytes := [frame ["a"; x09]]%byte.

(** Scenario C: a malformed frame on the build side, with a frame after it. *)
Definition buildC : list bytes :=
  [frame ["a"; x01]; frame ["b"; x02]; frame ["c"; x03]; malformed;
   frame ["d"; x04]]%byte.
Definition probeC : list bytes := [frame ["d"; x09]; frame ["c"; x09]]%byte.

(** A probe stream with a miss, a hit and another hit. *)
Definition probeD : list bytes :=
  [frame ["c"; x1e]; frame ["a"; x0a]; frame ["b"; x14]]%byte.

(** A probe stream with a hit, a miss and another hit. *)
Definition probeM : list bytes :=
  [frame ["a"; x0a]; frame ["c"; x1e]; frame ["b"; x14]]%byte.

(** A probe stream with a malformed frame in the middle. *)
Definition probeE : list bytes :=
  [frame ["c"; x09]; malformed; frame ["a"; x07]]%byte.

(** A probe stream that opens with a malformed frame and ends with an
    empty one. *)
Definition probeJunk : list bytes := [malformed; frame ["a"; x0a]%byte; []].

(** A build stream where key "a" comes twice before a malformed frame and
    once more after it. *)
Definition buildL : list bytes :=
  [frame ["a"; x01]; frame ["b"; x02]; frame ["a"; x02]; frame ["c"; x03];
   malformed; frame ["a"; x05]]%byte.

(** The part of [buildC] before its malformed frame. *)
Definition buildC_pre : list bytes :=
  [frame ["a"; x01]; frame ["b"; x02]; frame ["c"; x03]]%byte.

(** Rows wide enough for the joined row to have no encoding: 201 build
    fields and 101 probe fields under key "a" give 301 output fields. *)
Definition buildW : list bytes :=
  [frame ("a"%byte :: repeat x01 200); frame ["b"; x02]]%byte.
Definition probeW : list bytes :=
  [frame ("a"%byte :: repeat x02 100); frame ["b"; x07]]%byte.

(** A probe stream with a hit, a malformed frame and a frame after it. *)
Definition probeF : list bytes :=
  [frame ["a"; x0a]; malformed; frame ["b"; x14]]%byte.

(** The build stream of scenario A in the other order. *)
Definition buildA_swapped : list bytes :=
  [frame ["b"; x02]; frame ["a"; x01]]%byte.

End CountCodec.

(** * thrift.TSSLSocket

    The second part of the source file is the TLS socket transport of the
    vendored thrift library. The network, the clock and [socketConn] are
    outside the file: they are the fields of the class [Network]. A
    [*tls.Config] is a pointer, and the constructor writes through it: the
    configurations live in a store indexed by their address, and [nil] is
    [None]. A method with a pointer receiver returns the socket as the call
    leaves it. A nil dereference is a panic, [None]. *)
Module thrift.

(** [tls.VersionTLS10] *)
Definition VersionTLS10 : Z := 0x0301.

(** The two exception types that this file raises. *)
Inductive TTransportExceptionType : Type :=
| NOT_OPEN
| ALREADY_OPEN.

(** [tls.Config]: the field that the file touches, and all the others. *)
Record Config (R : Type) : Type := mkConfig {
  MinVersion : Z;
  otherFields : R
}.
Arguments mkConfig {R} MinVersion otherFields.
Arguments MinVersion {R} c.
Arguments otherFields {R} c.

Class Network : Type := {
  Net : Type;                  (* the state of the connections *)
  socketConn : Type;           (* a [*socketConn] that is not nil *)
  Addr : Type;                 (* a [net.Addr] that is not nil *)
  NetError : Type;             (* an [error] of the network that is not nil *)
  ConfigRest : Type;
  Time : Type;
  zeroTime : Time;             (* [var t time.Time] *)
  Now : Net → Time;            (* [time.Now()] *)
  Add : Time → Z → Time;       (* [t.Add(d)] *)
  ErrorString : NetError → string;                 (* [err.Error()] *)
  addrNetwork : Addr → string;                     (* [addr.Network()] *)
  addrString : Addr → string;                      (* [addr.String()] *)
  isValid : option socketConn → Net → bool;        (* [conn.isValid()] *)
  connClose : socketConn → Net → option NetError * Net;
  connRead : socketConn → nat → Net → (nat * bytes * option NetError) * Net;
  connWrite : socketConn → bytes → Net → (nat * option NetError) * Net;
  SetDeadline : socketConn → Time → Net → Net;
  SetReadDeadline : socketConn → Time → Net → Net;
  SetWriteDeadline : socketConn → Time → Net → Net;
  (* [createSocketConnFromReturn(tls.DialWithDialer(&net.Dialer{Timeout: t},
     network, address, cfg))]: the two values it returns *)
  DialWithDialer : Z → string → string → option (Config ConfigRest) → Net →
                   (option socketConn * option NetError) * Net
}.

Section Socket.
Context `{Network}.

Inductive error : Type :=
| NewTTransportException (t : TTransportExceptionType) (e : string)
| NewTTransportExceptionFromError (err : NetError)
| connError (err : NetError).

Record TSSLSocket : Type := mkTSSLSocket {
  conn : option socketConn;
  hostPort : string;
  addr : option Addr;
  cfg : option positive;
  connectTimeout : Z;
  socketTimeout : Z
}.

(** The configurations in memory and the network. *)
Record State : Type := mkState {
  configs : gmap positive (Config ConfigRest);
  net : Net
}.

Definition set_conn (p : TSSLSocket) (c : option socketConn) : TSSLSocket :=
  mkTSSLSocket c (hostPort p) (addr p) (cfg p) (connectTimeout p) (socketTimeout p).

(** [NewTSSLSocketTimeout] (source lines 130-140). The result is the socket
    and the store of configurations; the error is always nil. *)
Definition NewTSSLSocketTimeout (hostPort : string) (cfg : option positive)
    (connectTimeout socketTimeout : Z)
    (configs : gmap positive (Config ConfigRest))
    : option (TSSLSocket * gmap positive (Config ConfigRest)) :=
  match cfg with
  | None => None
  | Some l =>
      match configs !! l with
      | None => None
      | Some c =>
          let configs :=
            if Z.eqb (MinVersion c) 0
            then <[l := mkConfig VersionTLS10 (otherFields c)]> configs
            else configs in
          Some (mkTSSLSocket None hostPort None cfg connectTimeout socketTimeout,
                configs)
      end
  end.

(** [NewTSSLSocket] (source lines 124-126). *)
Definition NewTSSLSocket (hostPort : string) (cfg : option positive)
    (configs : gmap positive (Config ConfigRest))
    : option (TSSLSocket * gmap positive (Config ConfigRest)) :=
  NewTSSLSocketTimeout hostPort cfg 0 0 configs.

(** [NewTSSLSocketFromAddrTimeout] (source lines 143-150). *)
Definition NewTSSLSocketFromAddrTimeout (addr : option Addr)
    (cfg : option positive) (connectTimeout socketTimeout : Z) : TSSLSocket :=
  mkTSSLSocket None "" addr cfg connectTimeout socketTimeout.

(** [SetConnTimeout] and [SetSocketTimeout] (source lines 163-172); both
    return nil. *)
Definition SetConnTimeout (p : TSSLSocket) (timeout : Z) : TSSLSocket :=
  mkTSSLSocket (conn p) (hostPort p) (addr p) (cfg p) timeout (socketTimeout p).

Definition SetSocketTimeout (p : TSSLSocket) (timeout : Z) : TSSLSocket :=
  mkTSSLSocket (conn p) (hostPort p) (addr p) (cfg p) (connectTimeout p) timeout.

(** [pushDeadline] (source lines 174-186). The values returned by the
    setters are dropped. *)
Definition pushDeadline (p : TSSLSocket) (read write : bool) (n : Net)
    : option Net :=
  let t := if Z.ltb 0 (socketTimeout p)
           then Add (Now n) (socketTimeout p) else zeroTime in
  if read && write then
    match conn p with Some c => Some (SetDeadline c t n) | None => None end
  else if read then
    match conn p with Some c => Some (SetReadDeadline c t n) | None => None end
  else if write then
    match conn p with Some c => Some (SetWriteDeadline c t n) | None => None end
  else Some n.

(** The dial of [Open], with the assignment to [p.conn] and the test of the
    error that follow it. *)
Definition dial (p : TSSLSocket) (network address : string) (st : State)
    : option error * TSSLSocket * State :=
  let '((c, err), n) :=
    DialWithDialer (connectTimeout p) network address
      (cfg p ≫= λ l, configs st !! l) (net st) in
  (match err with
   | Some e => Some (NewTTransportException NOT_OPEN (ErrorString e))
   | None => None
   end,
   set_conn p c, mkState (configs st) n).

(** [Open] (source lines 189-229). *)
Definition Open (p : TSSLSocket) (st : State)
    : option error * TSSLSocket * State :=
  if negb (String.eqb (hostPort p) "") then
    dial p "tcp" (hostPort p) st
  else if isValid (conn p) (net st) then
    (Some (NewTTransportException ALREADY_OPEN "Socket already connected."), p, st)
  else
    match addr p with
    | None =>
        (Some (NewTTransportException NOT_OPEN "Cannot open nil address."), p, st)
    | Some a =>
        if Nat.eqb (String.length (addrNetwork a)) 0 then
          (Some (NewTTransportException NOT_OPEN "Cannot open bad network name."),
           p, st)
        else if Nat.eqb (String.length (addrString a)) 0 then
          (Some (NewTTransportException NOT_OPEN "Cannot open bad address."),
           p, st)
        else dial p (addrNetwork a) (addrString a) st
    end.

(** [Close] (source lines 242-252). *)
Definition Close (p : TSSLSocket) (st : State)
    : option error * TSSLSocket * State :=
  match conn p with
  | Some c =>
      let '(err, n) := connClose c (net st) in
      match err with
      | Some e => (Some (connError e), p, mkState (configs st) n)
      | None => (None, set_conn p None, mkState (configs st) n)
      end
  | None => (None, p, st)
  end.

(** [Read] (source lines 254-264): the count, the bytes put in the buffer,
    the error. [NewTTransportExceptionFromError] is outside the file; it is
    taken to wrap an error and to keep nil. What a method of [socketConn]
    does on a nil receiver is outside the file too: the model gives no
    result there. *)
Definition Read (p : TSSLSocket) (buflen : nat) (st : State)
    : option ((nat * bytes * option error) * State) :=
  if negb (isValid (conn p) (net st)) then
    Some ((0%nat, [], Some (NewTTransportException NOT_OPEN "Connection not open")),
          st)
  else
    match pushDeadline p true false (net st), conn p with
    | Some n, Some c =>
        let '((k, data, err), n) := connRead c buflen n in
        Some ((k, data, NewTTransportExceptionFromError <$> err),
              mkState (configs st) n)
    | _, _ => None
    end.

(** [Write] (source lines 266-272). *)
Definition Write (p : TSSLSocket) (buf : bytes) (st : State)
    : option ((nat * option error) * State) :=
  if negb (isValid (conn p) (net st)) then
    Some ((0%nat, Some (NewTTransportException NOT_OPEN "Connection not open")),
          st)
  else
    match pushDeadline p false true (net st), conn p with
    | Some n, Some c =>
        let '((k, err), n) := connWrite c buf n in
        Some ((k, connError <$> err), mkState (configs st) n)
    | _, _ => None
    end.

(** [Flush] (source lines 274-276). *)
Definition Flush (p : TSSLSocket) : option error := None.

(** [Interrupt] (source lines 278-283). *)
Definition Interrupt (p : TSSLSocket) (st : State)
    : option (option error * State) :=
  if negb (isValid (conn p) (net st)) then Some (None, st)
  else
    match conn p with
    | Some c =>
        let '(err, n) := connClose c (net st) in
        Some (connError <$> err, mkState (configs st) n)
    | None => None
    end.

(** [RemainingBytes] (source lines 285-288): [^uint64(0)]. *)
Definition RemainingBytes (p : TSSLSocket) : Z := Z.lnot 0 mod 2 ^ 64.

End Socket.

(** A small network on which the socket can be run: a connection is a
    number, the state is the list of the connections that are open and the
    next number to hand out, the clock stands still, and dialing succeeds
    but for the address ["down:1"]. *)
Record LoopNet : Type := mkLoopNet {
  live : list nat;
  fresh : nat
}.

#[local] Instance loop : Network := {|
  Net := LoopNet;
  socketConn := nat;
  Addr := string * string;
  NetError := string;
  ConfigRest := unit;
  Time := Z;
  zeroTime := 0%Z;
  Now := λ _, 1000%Z;
  Add := Z.add;
  ErrorString := λ e, e;
  addrNetwork := fst;
  addrString := snd;
  isValid := λ c n, match c with
                    | Some i => bool_decide (i ∈ live n)
                    | None => false
                    end;
  connClose := λ i n,
    if bool_decide (i ∈ live n)
    then (None, mkLoopNet (filter (λ j, j ≠ i) (live n)) (fresh n))
    else (Some "use of closed network connection"%string, n);
  connRead := λ i k n, ((0%nat, [], None), n);
  connWrite := λ i b n, ((length b, None), n);
  SetDeadline := λ _ _ n, n;
  SetReadDeadline := λ _ _ n, n;
  SetWriteDeadline := λ _ _ n, n;
  DialWithDialer := λ _ _ address _ n,
    if String.eqb address "down:1"
    then ((None, Some "connection refused"%string), n)
    else ((Some (fresh n), None), mkLoopNet (fresh n :: live n) (S (fresh n)))
|}.

(** A store with one configuration whose minimum version is not set, a
    socket made for a host and port, a socket with neither host nor address,
    and a socket that holds connection 0 on a network where it is open. *)
Definition loopConfigs : gmap positive (Config unit) :=
  {[ 1%positive := mkConfig 0 tt ]}.

Definition loopState : State := mkState loopConfigs (mkLoopNet [] 0).

Definition sockHost : TSSLSocket :=
  mkTSSLSocket None "example.org:9090" None (Some 1%positive) 0 0.

Definition sockBare : TSSLSocket :=
  mkTSSLSocket None "" None (Some 1%positive) 0 0.

Definition sockOpen : TSSLSocket :=
  mkTSSLSocket (Some 0%nat) "example.org:9090" None (Some 1%positive) 0 0.

Definition loopStateOpen : State := mkState loopConfigs (mkLoopNet [0%nat] 1).

End thrift.

Section Instruction.

(** The row codec of package [util] is an external collaborator: the decoded
    field values ([interface{}]), the errors it raises, and its two entry
    points are parameters of the development. *)
Variable Field : Type.
Variable CodecError : Type.

Abbreviation Row := (list Field).

(** [util.DecodeRowKeysValues(input, indexes)]: the fields at the key
    positions and the remaining fields. *)
Variable DecodeRowKeysValues : bytes → list Z → result CodecError (Row * Row).

(** [util.EncodeRow(fields...)]. *)
Variable EncodeRow : Row → result CodecError bytes.

(** The errors built by the handlers with [fmt.Errorf]. *)
Inductive error : Type :=
| Errorf_input (err : CodecError) (input : bytes)  (* "%v: %+v", err, input *)
| Errorf_keys (keys : Row) (err : CodecError).     (* "Failed to encoded row %+v: %v", keys, err *)

(** The lines printed with [fmt.Printf]. *)
Inductive line : Type :=
| SortFailed (err : error)    (* "Sort>Failed to read input data:%v\n" *)
| JoinFailed (err : error).   (* "LocalHashAndJoinWith>Failed to process the bigger input data:%v\n" *)

Record World : Type := mkWorld {
  hashmap : gmap string Row;
  writer : list bytes;
  stdout : list line;
  trace : list event
}.

(** ** The state monad of the closures *)

Definition M (A : Type) : Type := World → A * World.

#[local] Instance M_ret : MRet M := λ A a w, (a, w).
#[local] Instance M_bind : MBind M :=
  λ A B f m w, let '(a, w') := m w in f a w'.

Definition log (e : event) : M unit :=
  λ w, (tt, mkWorld (hashmap w) (writer w) (stdout w) (trace w ++ [e])).

Definition Printf (l : line) : M unit :=
  λ w, (tt, mkWorld (hashmap w) (writer w) (stdout w ++ [l]) (trace w)).

(** [hashmap[key] = vals] *)
Definition store (key : string) (vals : Row) : M unit :=
  λ w, (tt, mkWorld (<[key := vals]> (hashmap w)) (writer w) (stdout w)
              (trace w ++ [EvStore key])).

(** [vals, ok := hashmap[key]] *)
Definition lookup_key (key : string) : M (option Row) :=
  λ w, (hashmap w !! key,
        mkWorld (hashmap w) (writer w) (stdout w) (trace w ++ [EvLookup key])).

(** [len(hashmap)] *)
Definition len_hashmap : M nat := λ w, (size (hashmap w), w).

Definition write (encoded : bytes) : M unit :=
  λ w, (tt, mkWorld (hashmap w) (writer w ++ [encoded]) (stdout w)
              (trace w ++ [EvWrite encoded])).

(** ** The collaborators of the instruction *)

(** Modelled from the spec: [util.ProcessMessage], which is not part of the
    source file. It repeatedly extracts frames until end-of-stream and
    invokes the handler on each; when the handler signals an error the
    iteration stops immediately and the error is surfaced to the caller.
    The result is the unread rest of the reader and the error. *)
Fixpoint ProcessMessage (r : stream) (reader : list bytes)
    (f : bytes → M (option error)) : M (list bytes * option error) :=
  match reader with
  | [] => mret ([], None)
  | input :: rest =>
      log (EvRead r input);;
      err ← f input;
      match err with
      | Some e => mret (rest, Some e)
      | None => ProcessMessage r rest f
      end
  end.

(** [io.Copy(ioutil.Discard, reader)]: reads the reader to its end and
    throws the bytes away. *)
Definition Discard (r : stream) (reader : list bytes) : M (list bytes) :=
  log (EvDiscard r (length reader));; mret [].

(** Modelled from the spec: [genKeyBytesAndValues], a helper of package
    [instruction] that is not part of the source file. It decodes the row,
    extracts key and value with the position list, and canonicalizes the key
    with the shared row-encoding routine. *)
Definition genKeyBytesAndValues (input : bytes) (indexes : list Z)
    : result CodecError (bytes * Row) :=
  match DecodeRowKeysValues input indexes with
  | Err err => Err err
  | Ok (keys, vals) =>
      match EncodeRow keys with
      | Err err => Err err
      | Ok keyBytes => Ok (keyBytes, vals)
      end
  end.

(** Modelled from the spec: [util.WriteRow], which is not part of the source
    file. The row is encoded with the shared row-encoding routine and the
    frame is written to the output stream; an encoding failure is returned
    and nothing is written. *)
Definition WriteRow (row : Row) : M (option CodecError) :=
  match EncodeRow row with
  | Err err => mret (Some err)
  | Ok encoded => write encoded;; mret None
  end.

(** ** The instruction *)

(** The closure of the build phase (source lines 43-50). *)
Definition buildHandler (indexes : list Z) (input : bytes) : M (option error) :=
  match genKeyBytesAndValues input indexes with
  | Err err => mret (Some (Errorf_input err input))
  | Ok (keys, vals) =>
      store (String.string_of_list_byte keys) vals;;
      mret None
  end.

(** The closure of the probe phase (source lines 59-74). The value returned
    by [util.WriteRow] is not looked at. *)
Definition probeHandler (indexes : list Z) (input : bytes) : M (option error) :=
  match DecodeRowKeysValues input indexes with
  | Err err => mret (Some (Errorf_input err input))
  | Ok (keys, vals) =>
      match EncodeRow keys with
      | Err err => mret (Some (Errorf_keys keys err))
      | Ok keyBytes =>
          found ← lookup_key (String.string_of_list_byte keyBytes);
          match found with
          | Some mappedValues =>
              let row := keys ++ vals in
              let row := row ++ mappedValues in
              WriteRow row;;
              mret None
          | None => mret None
          end
      end
  end.

(** The result of a call: where the two readers stand, and the world. *)
Record Outcome : Type := mkOutcome {
  leftRest : list bytes;
  rightRest : list bytes;
  world : World
}.

(** The statements of [DoLocalHashAndJoinWith] after the creation of
    [hashmap]; the result is where the two readers stand at the end. The
    [return] inside [if len(hashmap) == 0] is the first branch. *)
Definition body (leftReader rightReader : list bytes) (indexes : list Z)
    : M (list bytes * list bytes) :=
  '(leftRest, err) ← ProcessMessage leftStream leftReader (buildHandler indexes);
  match err with
  | Some e => Printf (SortFailed e)
  | None => mret tt
  end;;
  n ← len_hashmap;
  if Nat.eqb n 0 then
    rightRest ← Discard rightStream rightReader;
    mret (leftRest, rightRest)
  else
    '(rightRest, err) ← ProcessMessage rightStream rightReader (probeHandler indexes);
    match err with
    | Some e => Printf (JoinFailed e)
    | None => mret tt
    end;;
    mret (leftRest, rightRest).

(** [DoLocalHashAndJoinWith(leftReader, rightReader, writer, indexes)]
    (source lines 41-78). [hashmap] starts empty; [writer] is what the output
    stream holds when the call starts. *)
Definition DoLocalHashAndJoinWith (leftReader rightReader : list bytes)
    (writer : list bytes) (indexes : list Z) : Outcome :=
  let '((l, r), w) := body leftReader rightReader indexes (mkWorld ∅ writer [] []) in
  mkOutcome l r w.

(** The frames that a call adds to the output stream. *)
Definition emitted (leftReader rightReader : list bytes) (indexes : list Z)
    : list bytes :=
  writer (world (DoLocalHashAndJoinWith leftReader rightReader [] indexes)).

(** Modelled from the spec: the statistics sink [Stats], whose declaration
    is not part of the source file. It accumulates counters: rows read per
    side, rows emitted, error count per phase. *)
Record Stats : Type := mkStats {
  rowsReadBuild : Z;
  rowsReadProbe : Z;
  rowsEmitted : Z;
  buildErrors : Z;
  probeErrors : Z
}.

(** A sink with every counter at zero. *)
Definition zeroStats : Stats := mkStats 0 0 0 0 0.

Record LocalHashAndJoinWith : Type := NewLocalHashAndJoinWith {
  indexes : list Z
}.

Definition Name (b : LocalHashAndJoinWith) : string := "LocalHashAndJoinWith".

(** [b.Function()(readers, writers, stats)] (source lines 25-29). Indexing
    [readers] or [writers] out of range panics: [None]. [stats] is a pointer
    to the sink; the second component is the sink when the call returns. *)
Definition Function (b : LocalHashAndJoinWith) (readers writers : list (list bytes))
    (stats : Stats) : option (Outcome * Stats) :=
  match readers !! 0%nat, readers !! 1%nat, writers !! 0%nat with
  | Some r0, Some r1, Some w0 =>
      Some (DoLocalHashAndJoinWith r0 r1 w0 (indexes b), stats)
  | _, _, _ => None
  end.

(** ** Reference descriptions of the two phases

    Pure functions that describe what each phase does to the part of the
    world it touches; the phases are proved equal to them below, and the
    properties of the instruction are derived from there. *)

(** A frame that both handlers accept: it decodes and its key encodes. *)
Definition well_formed (indexes : list Z) (input : bytes) : bool :=
  match genKeyBytesAndValues input indexes with
  | Ok _ => true
  | Err _ => false
  end.

Fixpoint build_table (indexes : list Z) (reader : list bytes)
    (m : gmap string Row) : gmap string Row :=
  match reader with
  | [] => m
  | input :: rest =>
      match genKeyBytesAndValues input indexes with
      | Err _ => m
      | Ok (keys, vals) =>
          build_table indexes rest (<[String.string_of_list_byte keys := vals]> m)
      end
  end.

Fixpoint build_trace (indexes : list Z) (reader : list bytes) : list event :=
  match reader with
  | [] => []
  | input :: rest =>
      match genKeyBytesAndValues input indexes with
      | Err _ => [EvRead leftStream input]
      | Ok (keys, vals) =>
          EvRead leftStream input :: EvStore (String.string_of_list_byte keys)
            :: build_trace indexes rest
      end
  end.

(** Where a phase stops: the unread rest and the error of the first frame
    that the handler [h] refuses. *)
Fixpoint stop_at {E : Type} (h : bytes → option E) (reader : list bytes)
    : list bytes * option E :=
  match reader with
  | [] => ([], None)
  | input :: rest =>
      match h input with
      | Some e => (rest, Some e)
      | None => stop_at h rest
      end
  end.

Definition build_refuses (indexes : list Z) (input : bytes) : option error :=
  match genKeyBytesAndValues input indexes with
  | Err err => Some (Errorf_input err input)
  | Ok _ => None
  end.

Definition probe_refuses (indexes : list Z) (input : bytes) : option error :=
  match DecodeRowKeysValues input indexes with
  | Err err => Some (Errorf_input err input)
  | Ok (keys, _) =>
      match EncodeRow keys with
      | Err err => Some (Errorf_keys keys err)
      | Ok _ => None
      end
  end.

(** What the probe handler does on one frame: the frames it writes and the
    events it causes. *)
Definition probe_step (indexes : list Z) (m : gmap string Row) (input : bytes)
    : list bytes * list event :=
  match DecodeRowKeysValues input indexes with
  | Err _ => ([], [])
  | Ok (keys, vals) =>
      match EncodeRow keys with
      | Err _ => ([], [])
      | Ok keyBytes =>
          let key := String.string_of_list_byte keyBytes in
          match m !! key with
          | None => ([], [EvLookup key])
          | Some mappedValues =>
              match EncodeRow ((keys ++ vals) ++ mappedValues) with
              | Err _ => ([], [EvLookup key])
              | Ok encoded => ([encoded], [EvLookup key; EvWrite encoded])
              end
          end
      end
  end.

Fixpoint probe_run (indexes : list Z) (m : gmap string Row) (reader : list bytes)
    : list bytes * list event :=
  match reader with
  | [] => ([], [])
  | input :: rest =>
      let '(o, t) := probe_step indexes m input in
      match probe_refuses indexes input with
      | Some _ => (o, EvRead rightStream input :: t)
      | None =>
          let '(os, ts) := probe_run indexes m rest in
          (o ++ os, EvRead rightStream input :: t ++ ts)
      end
  end.

(** The table that the build phase leaves behind. *)
Definition table (leftReader : list bytes) (indexes : list Z) : gmap string Row :=
  hashmap (world (DoLocalHashAndJoinWith leftReader [] [] indexes)).

(** No build row that is read from [reader] has the key [key]: the frames
    are looked at up to the first one that the build handler refuses. *)
Fixpoint no_row_with_key (indexes : list Z) (key : string) (reader : list bytes)
    : bool :=
  match reader with
  | [] => true
  | input :: rest =>
      match genKeyBytesAndValues input indexes with
      | Err _ => true
      | Ok (keys, _) =>
          bool_decide (String.string_of_list_byte keys ≠ key)
            && no_row_with_key indexes key rest
      end
  end.

(** The frames of stream [r] that were handed to a handler, in order. *)
Definition frames_read (r : stream) (t : list event) : list bytes :=
  flat_map (λ e, match e with
                 | EvRead r' input => if decide (r' = r) then [input] else []
                 | _ => []
                 end) t.

(** The lines that a phase prints for the error it stopped on. *)
Definition report (mk : error → line) (err : option error) : list line :=
  match err with
  | Some e => [mk e]
  | None => []
  end.

(** The table keys of the frames of a build stream that have one, in the
    order of the stream. *)
Definition build_keys (indexes : list Z) (reader : list bytes) : list string :=
  flat_map (λ input, match genKeyBytesAndValues input indexes with
                     | Ok (keys, _) => [String.string_of_list_byte keys]
                     | Err _ => []
                     end) reader.

(** ** The phases against their reference descriptions *)

Lemma build_refuses_well_formed indexes input :
  build_refuses indexes input = None ↔ well_formed indexes input = true.
Proof.
  unfold build_refuses, well_formed.
  destruct (genKeyBytesAndValues input indexes); split; congruence.
Qed.

Lemma probe_refuses_well_formed indexes input :
  probe_refuses indexes input = None ↔ well_formed indexes input = true.
Proof.
  unfold probe_refuses, well_formed, genKeyBytesAndValues.
  destruct (DecodeRowKeysValues input indexes) as [[keys vals]|]; [|split; congruence].
  destruct (EncodeRow keys); split; congruence.
Qed.

Lemma ProcessMessage_cons r input rest f w :
  ProcessMessage r (input :: rest) f w =
  let '(err, w') := f input (log (EvRead r input) w).2 in
  match err with
  | Some e => ((rest, Some e), w')
  | None => ProcessMessage r rest f w'
  end.
Proof.
  simpl. unfold mbind, M_bind; simpl.
  by destruct (f input _) as [[e|] w'].
Qed.

Lemma buildHandler_spec indexes input w :
  buildHandler indexes input w =
  (build_refuses indexes input,
   match genKeyBytesAndValues input indexes with
   | Err _ => w
   | Ok (keys, vals) =>
       mkWorld (<[String.string_of_list_byte keys := vals]> (hashmap w))
         (writer w) (stdout w)
         (trace w ++ [EvStore (String.string_of_list_byte keys)])
   end).
Proof.
  unfold buildHandler, build_refuses.
  by destruct (genKeyBytesAndValues input indexes) as [[keys vals]|err].
Qed.

Lemma probeHandler_spec indexes input w :
  probeHandler indexes input w =
  (probe_refuses indexes input,
   mkWorld (hashmap w) (writer w ++ (probe_step indexes (hashmap w) input).1)
     (stdout w) (trace w ++ (probe_step indexes (hashmap w) input).2)).
Proof.
  destruct w as [m o p t].
  unfold probeHandler, probe_refuses, probe_step; simpl.
  destruct (DecodeRowKeysValues input indexes) as [[keys vals]|err]; simpl;
    [|by rewrite !app_nil_r].
  destruct (EncodeRow keys) as [keyBytes|err]; simpl; [|by rewrite !app_nil_r].
  unfold mbind, M_bind, lookup_key, WriteRow; simpl.
  destruct (m !! String.string_of_list_byte keyBytes) as [mapped|]; simpl;
    [|by rewrite app_nil_r].
  destruct (EncodeRow ((keys ++ vals) ++ mapped)) as [encoded|err]; simpl.
  - by rewrite <- app_assoc.
  - by rewrite app_nil_r.
Qed.

Lemma buildPhase_spec indexes reader w :
  ProcessMessage leftStream reader (buildHandler indexes) w =
  (stop_at (build_refuses indexes) reader,
   mkWorld (build_table indexes reader (hashmap w)) (writer w) (stdout w)
     (trace w ++ build_trace indexes reader)).
Proof.
  revert w. induction reader as [|input rest IH]; intros [m o p t].
  - simpl. unfold mret, M_ret. by rewrite app_nil_r.
  - rewrite ProcessMessage_cons, buildHandler_spec.
    unfold build_refuses; simpl.
    destruct (genKeyBytesAndValues input indexes) as [[keys vals]|err]; simpl.
    + rewrite IH; simpl. by rewrite <- !app_assoc.
    + done.
Qed.

Lemma probePhase_spec indexes reader w :
  ProcessMessage rightStream reader (probeHandler indexes) w =
  (stop_at (probe_refuses indexes) reader,
   mkWorld (hashmap w)
     (writer w ++ (probe_run indexes (hashmap w) reader).1) (stdout w)
     (trace w ++ (probe_run indexes (hashmap w) reader).2)).
Proof.
  revert w. induction reader as [|input rest IH]; intros [m o p t].
  - simpl. unfold mret, M_ret. by rewrite !app_nil_r.
  - rewrite ProcessMessage_cons, probeHandler_spec; simpl.
    destruct (probe_step indexes m input) as [o1 t1]; simpl.
    destruct (probe_refuses indexes input) as [e|]; simpl.
    + by rewrite <- app_assoc.
    + rewrite IH; simpl.
      destruct (probe_run indexes m rest) as [os ts]; simpl.
      by rewrite <- !app_assoc.
Qed.

Lemma DoLocalHashAndJoinWith_spec leftReader rightReader writer0 indexes :
  DoLocalHashAndJoinWith leftReader rightReader writer0 indexes =
  let m := build_table indexes leftReader ∅ in
  let b := stop_at (build_refuses indexes) leftReader in
  let p := stop_at (probe_refuses indexes) rightReader in
  let j := probe_run indexes m rightReader in
  if Nat.eqb (size m) 0 then
    mkOutcome b.1 []
      (mkWorld m writer0 (report SortFailed b.2)
         (build_trace indexes leftReader
            ++ [EvDiscard rightStream (length rightReader)]))
  else
    mkOutcome b.1 p.1
      (mkWorld m (writer0 ++ j.1)
         (report SortFailed b.2 ++ report JoinFailed p.2)
         (build_trace indexes leftReader ++ j.2)).
Proof.
  unfold DoLocalHashAndJoinWith, body.
  unfold mbind at 1. unfold M_bind at 1.
  rewrite buildPhase_spec; simpl.
  destruct (stop_at (build_refuses indexes) leftReader) as [lrest lerr]; simpl.
  unfold mbind, M_bind, len_hashmap.
  destruct lerr as [e|]; simpl;
    (destruct (Nat.eqb (size (build_table indexes leftReader ∅)) 0); simpl;
     [done|]);
    rewrite probePhase_spec; simpl;
    destruct (stop_at (probe_refuses indexes) rightReader) as [rrest rerr]; simpl;
    destruct rerr as [e'|]; simpl; by rewrite ?app_nil_r.
Qed.

Lemma DoLocalHashAndJoinWith_hashmap leftReader rightReader writer0 indexes :
  hashmap (world (DoLocalHashAndJoinWith leftReader rightReader writer0 indexes))
  = table leftReader indexes.
Proof.
  unfold table. rewrite !DoLocalHashAndJoinWith_spec; simpl.
  by destruct (Nat.eqb _ 0).
Qed.

Lemma table_spec leftReader indexes :
  table leftReader indexes = build_table indexes leftReader ∅.
Proof.
  unfold table. rewrite DoLocalHashAndJoinWith_spec; simpl.
  by destruct (Nat.eqb _ 0).
Qed.

Lemma DoLocalHashAndJoinWith_writer leftReader rightReader writer0 indexes :
  writer (world (DoLocalHashAndJoinWith leftReader rightReader writer0 indexes))
  = writer0 ++ emitted leftReader rightReader indexes.
Proof.
  unfold emitted. rewrite !DoLocalHashAndJoinWith_spec; simpl.
  destruct (Nat.eqb _ 0); simpl; by rewrite ?app_nil_r.
Qed.

Lemma emitted_spec leftReader rightReader indexes :
  emitted leftReader rightReader indexes =
  if Nat.eqb (size (table leftReader indexes)) 0 then []
  else (probe_run indexes (table leftReader indexes) rightReader).1.
Proof.
  rewrite table_spec. unfold emitted.
  rewrite DoLocalHashAndJoinWith_spec; simpl.
  by destruct (Nat.eqb _ 0).
Qed.

(** ** Facts about the reference descriptions *)

Lemma size_eqb_0_empty (m : gmap string Row) : Nat.eqb (size m) 0 = true ↔ m = ∅.
Proof. rewrite Nat.eqb_eq. apply map_size_empty_iff. Qed.

Lemma forallb_well_formed_elem indexes pre :
  forallb (well_formed indexes) pre = true →
  ∀ x, x ∈ pre → well_formed indexes x = true.
Proof.
  rewrite forallb_forall. intros H x Hx. apply H. by apply list_elem_of_In.
Qed.

Lemma stop_at_app {E : Type} (h : bytes → option E) pre post :
  (∀ x, x ∈ pre → h x = None) →
  stop_at h (pre ++ post) = stop_at h post.
Proof.
  induction pre as [|x pre IH]; intros H; simpl; [done|].
  rewrite (H x) by set_solver. apply IH. intros y Hy. apply H. set_solver.
Qed.

Lemma build_table_app indexes pre post m :
  forallb (well_formed indexes) pre = true →
  build_table indexes (pre ++ post) m
  = build_table indexes post (build_table indexes pre m).
Proof.
  revert m. induction pre as [|x pre IH]; intros m H; simpl in *; [done|].
  apply andb_prop in H as [Hx H]. unfold well_formed in Hx.
  destruct (genKeyBytesAndValues x indexes) as [[keys vals]|]; [|done].
  by apply IH.
Qed.

Lemma probe_run_app indexes m pre post :
  forallb (well_formed indexes) pre = true →
  probe_run indexes m (pre ++ post) =
  ((probe_run indexes m pre).1 ++ (probe_run indexes m post).1,
   (probe_run indexes m pre).2 ++ (probe_run indexes m post).2).
Proof.
  induction pre as [|x pre IH]; intros H; simpl in *.
  - by destruct (probe_run indexes m post).
  - apply andb_prop in H as [Hx H].
    apply probe_refuses_well_formed in Hx. rewrite Hx.
    destruct (probe_step indexes m x) as [o t].
    rewrite (IH H).
    destruct (probe_run indexes m pre) as [os ts]; simpl.
    by rewrite <- !app_assoc.
Qed.

Lemma probe_run_cons indexes m input rest :
  probe_refuses indexes input = None →
  probe_run indexes m (input :: rest) =
  ((probe_step indexes m input).1 ++ (probe_run indexes m rest).1,
   EvRead rightStream input
     :: (probe_step indexes m input).2 ++ (probe_run indexes m rest).2).
Proof.
  intros H; simpl. rewrite H.
  destruct (probe_step indexes m input), (probe_run indexes m rest); done.
Qed.

Lemma probe_refuses_accepts indexes input keys vals keyBytes :
  DecodeRowKeysValues input indexes = Ok (keys, vals) →
  EncodeRow keys = Ok keyBytes →
  probe_refuses indexes input = None.
Proof. intros Hd He. unfold probe_refuses. by rewrite Hd, He. Qed.

Lemma build_table_no_row indexes key reader m :
  no_row_with_key indexes key reader = true →
  build_table indexes reader m !! key = m !! key.
Proof.
  revert m. induction reader as [|x rest IH]; intros m H; simpl in *; [done|].
  destruct (genKeyBytesAndValues x indexes) as [[keys vals]|]; [|done].
  apply andb_prop in H as [Hk H]. apply bool_decide_eq_true in Hk.
  rewrite (IH _ H). by apply lookup_insert_ne.
Qed.


Lemma stop_at_refused {E : Type} (h : bytes → option E) pre bad post e :
  (∀ x, x ∈ pre → h x = None) →
  h bad = Some e →
  stop_at h (pre ++ bad :: post) = (post, Some e).
Proof. intros Hpre Hbad. rewrite stop_at_app by done. simpl. by rewrite Hbad. Qed.

Lemma stop_at_accepted {E : Type} (h : bytes → option E) pre :
  (∀ x, x ∈ pre → h x = None) →
  stop_at h pre = ([], None).
Proof.
  intros Hpre. rewrite <- (app_nil_r pre). by rewrite stop_at_app.
Qed.

Lemma well_formed_build_accepts indexes pre :
  forallb (well_formed indexes) pre = true →
  ∀ x, x ∈ pre → build_refuses indexes x = None.
Proof.
  intros H x Hx. apply build_refuses_well_formed.
  by apply (forallb_well_formed_elem _ _ H).
Qed.

Lemma well_formed_probe_accepts indexes pre :
  forallb (well_formed indexes) pre = true →
  ∀ x, x ∈ pre → probe_refuses indexes x = None.
Proof.
  intros H x Hx. apply probe_refuses_well_formed.
  by apply (forallb_well_formed_elem _ _ H).
Qed.


Lemma build_trace_build_events indexes reader :
  forallb build_event (build_trace indexes reader) = true.
Proof.
  induction reader as [|x rest IH]; simpl; [done|].
  by destruct (genKeyBytesAndValues x indexes) as [[keys vals]|].
Qed.

Lemma build_trace_frames_read indexes reader :
  frames_read leftStream (build_trace indexes reader)
    ++ (stop_at (build_refuses indexes) reader).1 = reader.
Proof.
  induction reader as [|x rest IH]; simpl; [done|].
  unfold build_refuses at 1.
  destruct (genKeyBytesAndValues x indexes) as [[keys vals]|]; simpl;
    by rewrite ?IH.
Qed.

Lemma build_trace_reads_no_probe_frame indexes reader :
  frames_read rightStream (build_trace indexes reader) = [].
Proof.
  induction reader as [|x rest IH]; simpl; [done|].
  by destruct (genKeyBytesAndValues x indexes) as [[keys vals]|].
Qed.

Lemma probe_step_probe_events indexes m input :
  forallb probe_event (probe_step indexes m input).2 = true.
Proof.
  unfold probe_step.
  destruct (DecodeRowKeysValues input indexes) as [[keys vals]|]; [|done].
  destruct (EncodeRow keys) as [keyBytes|]; [|done]. simpl.
  destruct (m !! _) as [mapped|]; [|done].
  by destruct (EncodeRow _).
Qed.

Lemma probe_run_probe_events indexes m reader :
  forallb probe_event (probe_run indexes m reader).2 = true.
Proof.
  induction reader as [|x rest IH]; simpl; [done|].
  pose proof (probe_step_probe_events indexes m x) as Hx.
  destruct (probe_step indexes m x) as [o t].
  destruct (probe_refuses indexes x); simpl; [done|].
  destruct (probe_run indexes m rest) as [os ts]; simpl in *.
  rewrite forallb_app. by rewrite Hx, IH.
Qed.

Lemma probe_event_not_build_event e :
  probe_event e = true → build_event e = false.
Proof. by destruct e as [[]|[]| | |]. Qed.

(** ** Properties of the instruction *)

(** C1, as the code has it. A probe row that the probe phase reads, whose
    canonical key is in the build table and whose joined row ProbeKey ++
    ProbeValue ++ BuildValue has an encoding, puts exactly one row on the
    output, that encoding, and it lands after everything that the earlier
    probe rows wrote and before everything that the later ones write: the
    output follows the arrival order of the probe rows. *)
Theorem probe_hit_emits_one_row leftReader pre input post writer0 indexes
    keys vals keyBytes mappedValues encoded :
  forallb (well_formed indexes) pre = true →
  DecodeRowKeysValues input indexes = Ok (keys, vals) →
  EncodeRow keys = Ok keyBytes →
  table leftReader indexes !! String.string_of_list_byte keyBytes
    = Some mappedValues →
  EncodeRow ((keys ++ vals) ++ mappedValues) = Ok encoded →
  writer (world (DoLocalHashAndJoinWith leftReader (pre ++ input :: post)
                   writer0 indexes))
  = writer (world (DoLocalHashAndJoinWith leftReader pre writer0 indexes))
      ++ encoded :: emitted leftReader post indexes.
Proof.
  intros Hpre Hd He Hm Hw.
  rewrite !DoLocalHashAndJoinWith_writer, !emitted_spec.
  destruct (Nat.eqb (size (table leftReader indexes)) 0) eqn:Hsz.
  { apply size_eqb_0_empty in Hsz. rewrite Hsz in Hm.
    by rewrite lookup_empty in Hm. }
  rewrite (probe_run_app _ _ _ _ Hpre); cbn [fst].
  rewrite (probe_run_cons _ _ _ _ (probe_refuses_accepts _ _ _ _ _ Hd He)); cbn [fst].
  unfold probe_step. rewrite Hd, He; simpl. rewrite Hm, Hw; simpl.
  by rewrite <- app_assoc.
Qed.

(** C2. Last write wins: when a build row is the last row read with its
    key, the table maps the key to that row's Value, whatever earlier rows
    with the same key carried, and that is the only Value held for the
    key. *)
Theorem build_last_write_wins pre input post rightReader writer0 indexes
    keyBytes vals :
  forallb (well_formed indexes) pre = true →
  genKeyBytesAndValues input indexes = Ok (keyBytes, vals) →
  no_row_with_key indexes (String.string_of_list_byte keyBytes) post = true →
  let t := hashmap (world (DoLocalHashAndJoinWith (pre ++ input :: post)
                             rightReader writer0 indexes)) in
  t !! String.string_of_list_byte keyBytes = Some vals
  ∧ ∀ v, t !! String.string_of_list_byte keyBytes = Some v → v = vals.
Proof.
  intros Hpre Hg Hpost t.
  assert (Ht : t !! String.string_of_list_byte keyBytes = Some vals).
  { unfold t. rewrite DoLocalHashAndJoinWith_hashmap, table_spec.
    rewrite (build_table_app _ _ _ _ Hpre); simpl. rewrite Hg.
    rewrite (build_table_no_row _ _ _ _ Hpost). apply lookup_insert_eq. }
  split; [done|]. intros v Hv. congruence.
Qed.

(** C3. A probe row whose canonical key is not in the build table writes
    nothing: the output is what the rows before it and the rows after it
    produce. *)
Theorem probe_miss_emits_nothing leftReader pre input post writer0 indexes
    keys vals keyBytes :
  forallb (well_formed indexes) pre = true →
  DecodeRowKeysValues input indexes = Ok (keys, vals) →
  EncodeRow keys = Ok keyBytes →
  table leftReader indexes !! String.string_of_list_byte keyBytes = None →
  writer (world (DoLocalHashAndJoinWith leftReader (pre ++ input :: post)
                   writer0 indexes))
  = writer (world (DoLocalHashAndJoinWith leftReader pre writer0 indexes))
      ++ emitted leftReader post indexes.
Proof.
  intros Hpre Hd He Hm.
  rewrite !DoLocalHashAndJoinWith_writer, !emitted_spec.
  destruct (Nat.eqb (size (table leftReader indexes)) 0) eqn:Hsz.
  { by rewrite !app_nil_r. }
  rewrite (probe_run_app _ _ _ _ Hpre); cbn [fst].
  rewrite (probe_run_cons _ _ _ _ (probe_refuses_accepts _ _ _ _ _ Hd He)); cbn [fst].
  unfold probe_step. rewrite Hd, He; simpl. rewrite Hm; simpl.
  by rewrite <- app_assoc.
Qed.


(** C5. When the build phase ends with an empty table, as it does for an
    empty build stream, the probe stream is read to its end and discarded,
    and nothing is written. *)
Theorem empty_table_drains_probe leftReader rightReader writer0 indexes :
  leftReader = [] ∨ table leftReader indexes = ∅ →
  let o := DoLocalHashAndJoinWith leftReader rightReader writer0 indexes in
  rightRest o = []
  ∧ writer (world o) = writer0
  ∧ last (trace (world o)) = Some (EvDiscard rightStream (length rightReader)).
Proof.
  intros H.
  assert (Hm : table leftReader indexes = ∅).
  { destruct H as [->|H]; [|done]. by rewrite table_spec. }
  rewrite table_spec in Hm. cbn zeta.
  rewrite DoLocalHashAndJoinWith_spec. cbn zeta.
  rewrite (proj2 (size_eqb_0_empty _) Hm); simpl.
  by rewrite last_snoc.
Qed.

(** C6, as the code has it. The statistics sink handed to the run entry
    point comes back as it went in. The error on which a phase stops is
    reported on standard output instead: one line for the build phase, and
    one for the probe phase when the table is not empty. *)
Theorem errors_printed_stats_untouched (b : LocalHashAndJoinWith)
    readers writers leftReader rightReader stats o stats' :
  readers !! 0%nat = Some leftReader →
  readers !! 1%nat = Some rightReader →
  Function b readers writers stats = Some (o, stats') →
  stats' = stats
  ∧ (∀ pre bad post err,
       leftReader = pre ++ bad :: post →
       forallb (well_formed (indexes b)) pre = true →
       genKeyBytesAndValues bad (indexes b) = Err err →
       SortFailed (Errorf_input err bad) ∈ stdout (world o))
  ∧ (∀ pre bad post err,
       rightReader = pre ++ bad :: post →
       forallb (well_formed (indexes b)) pre = true →
       table leftReader (indexes b) ≠ ∅ →
       DecodeRowKeysValues bad (indexes b) = Err err →
       JoinFailed (Errorf_input err bad) ∈ stdout (world o))
  ∧ (∀ pre bad post keys vals err,
       rightReader = pre ++ bad :: post →
       forallb (well_formed (indexes b)) pre = true →
       table leftReader (indexes b) ≠ ∅ →
       DecodeRowKeysValues bad (indexes b) = Ok (keys, vals) →
       EncodeRow keys = Err err →
       JoinFailed (Errorf_keys keys err) ∈ stdout (world o)).
Proof.
  intros H0 H1 HF. unfold Function in HF. rewrite H0, H1 in HF.
  destruct (writers !! 0%nat) as [w0|]; [|done].
  injection HF as <- <-. split; [done|].
  rewrite DoLocalHashAndJoinWith_spec. cbn zeta. rewrite <- table_spec.
  split; [|split].
  - intros pre bad post err -> Hpre Hbad.
    rewrite (stop_at_refused (build_refuses (indexes b)) pre bad post
               (Errorf_input err bad) (well_formed_build_accepts _ _ Hpre))
      by (unfold build_refuses; by rewrite Hbad).
    destruct (Nat.eqb _ 0); simpl; set_solver.
  - intros pre bad post err -> Hpre Hne Hbad.
    destruct (Nat.eqb (size (table leftReader (indexes b))) 0) eqn:Hsz.
    { by apply size_eqb_0_empty in Hsz. }
    rewrite (stop_at_refused (probe_refuses (indexes b)) pre bad post
               (Errorf_input err bad) (well_formed_probe_accepts _ _ Hpre))
      by (unfold probe_refuses; by rewrite Hbad).
    simpl. set_solver.
  - intros pre bad post keys vals err -> Hpre Hne Hd He.
    destruct (Nat.eqb (size (table leftReader (indexes b))) 0) eqn:Hsz.
    { by apply size_eqb_0_empty in Hsz. }
    rewrite (stop_at_refused (probe_refuses (indexes b)) pre bad post
               (Errorf_keys keys err) (well_formed_probe_accepts _ _ Hpre))
      by (unfold probe_refuses; by rewrite Hd, He).
    simpl. set_solver.
Qed.

(** C7. Phase barrier: the trace of a call splits into a build part followed
    by a probe part. The build part holds only reads of the build stream and
    stores into the table, and reads the build stream up to its end or up to
    the frame on which the build phase failed; the probe part holds only
    reads of the probe stream, lookups and writes, so that no store and no
    read of the build stream comes after the first probe action. *)
Theorem build_completes_before_probe leftReader rightReader writer0 indexes :
  let o := DoLocalHashAndJoinWith leftReader rightReader writer0 indexes in
  ∃ tb tp,
    trace (world o) = tb ++ tp
    ∧ forallb build_event tb = true
    ∧ forallb probe_event tp = true
    ∧ (∀ e, e ∈ tp → build_event e = false)
    ∧ leftReader = frames_read leftStream tb ++ leftRest o
    ∧ frames_read rightStream tb = []
    ∧ (leftRest o = [] ∨ ∃ e, stdout (world o) !! 0%nat = Some (SortFailed e)).
Proof.
  cbn zeta. rewrite DoLocalHashAndJoinWith_spec. cbn zeta.
  assert (Hstop : (stop_at (build_refuses indexes) leftReader).1 = []
                  ∨ ∃ e, (stop_at (build_refuses indexes) leftReader).2 = Some e).
  { clear. induction leftReader as [|x rest IH]; simpl; [by left|].
    destruct (build_refuses indexes x); simpl; [right; eauto|done]. }
  assert (Hprobe : ∀ tp, forallb probe_event tp = true →
                         ∀ e, e ∈ tp → build_event e = false).
  { intros tp Htp e He. apply probe_event_not_build_event.
    rewrite forallb_forall in Htp. apply Htp. by apply list_elem_of_In. }
  exists (build_trace indexes leftReader).
  destruct (Nat.eqb _ 0); eexists; simpl;
    (split; [reflexivity|]);
    (split; [apply build_trace_build_events|]);
    (split; [first [apply probe_run_probe_events|done]|]);
    (split; [apply Hprobe; first [apply probe_run_probe_events|done]|]);
    (split; [by rewrite build_trace_frames_read|]);
    (split; [apply build_trace_reads_no_probe_frame|]);
    (destruct Hstop as [?|[e He]]; [by left|right; exists e; by rewrite He]).
Qed.

(** C8, as the code has it. When the output row of a matching probe row
    cannot be encoded, the failure returned by [util.WriteRow] is dropped:
    the probe phase does not stop, it goes on with the frames that follow
    exactly as it does after a row that matches nothing. *)
Theorem probe_survives_write_failure leftReader pre input post writer0 indexes
    keys vals keyBytes mappedValues err :
  forallb (well_formed indexes) pre = true →
  DecodeRowKeysValues input indexes = Ok (keys, vals) →
  EncodeRow keys = Ok keyBytes →
  table leftReader indexes !! String.string_of_list_byte keyBytes
    = Some mappedValues →
  EncodeRow ((keys ++ vals) ++ mappedValues) = Err err →
  let o := DoLocalHashAndJoinWith leftReader (pre ++ input :: post)
             writer0 indexes in
  rightRest o = rightRest (DoLocalHashAndJoinWith leftReader post writer0 indexes)
  ∧ stdout (world o)
    = stdout (world (DoLocalHashAndJoinWith leftReader post writer0 indexes))
  ∧ writer (world o)
    = writer (world (DoLocalHashAndJoinWith leftReader pre writer0 indexes))
        ++ emitted leftReader post indexes.
Proof.
  intros Hpre Hd He Hm Hw. cbn zeta.
  pose proof (probe_refuses_accepts _ _ _ _ _ Hd He) as Hacc.
  rewrite !DoLocalHashAndJoinWith_writer, !emitted_spec.
  rewrite !DoLocalHashAndJoinWith_spec. cbn zeta.
  rewrite <- !table_spec.
  destruct (Nat.eqb (size (table leftReader indexes)) 0) eqn:Hsz.
  { apply size_eqb_0_empty in Hsz. rewrite Hsz in Hm.
    by rewrite lookup_empty in Hm. }
  simpl.
  rewrite (stop_at_app _ pre _ (well_formed_probe_accepts _ _ Hpre)); simpl.
  rewrite Hacc.
  rewrite (probe_run_app _ _ _ _ Hpre); cbn [fst].
  rewrite (probe_run_cons _ _ _ _ Hacc); cbn [fst].
  unfold probe_step. rewrite Hd, He; simpl. rewrite Hm, Hw; simpl.
  by rewrite <- app_assoc.
Qed.

(** The other half of C8 holds: a probe row whose key cannot be encoded
    ends the probe phase, and the frames after it stay unread. *)
Lemma probe_key_encode_failure_stops leftReader pre input post writer0 indexes
    keys vals err :
  forallb (well_formed indexes) pre = true →
  DecodeRowKeysValues input indexes = Ok (keys, vals) →
  EncodeRow keys = Err err →
  table leftReader indexes ≠ ∅ →
  let o := DoLocalHashAndJoinWith leftReader (pre ++ input :: post)
             writer0 indexes in
  rightRest o = post ∧ JoinFailed (Errorf_keys keys err) ∈ stdout (world o).
Proof.
  intros Hpre Hd He Hne. cbn zeta.
  rewrite DoLocalHashAndJoinWith_spec. cbn zeta. rewrite <- table_spec.
  destruct (Nat.eqb (size (table leftReader indexes)) 0) eqn:Hsz.
  { by apply size_eqb_0_empty in Hsz. }
  rewrite (stop_at_refused (probe_refuses indexes) pre input post
             (Errorf_keys keys err) (well_formed_probe_accepts _ _ Hpre))
    by (unfold probe_refuses; by rewrite Hd, He).
  simpl. split; [done|]. set_solver.
Qed.

(** C9. Determinism: the frames on the output stream are a function of the
    key positions and of the two input streams. Two runs on the same build
    stream and the same probe stream, whatever the statistics sinks they are
    given, leave the same bytes on the output. *)
Theorem join_is_deterministic (b1 b2 : LocalHashAndJoinWith)
    leftReader rightReader writer0 stats1 stats2 :
  indexes b1 = indexes b2 →
  (λ r, writer (world r.1))
    <$> Function b1 [leftReader; rightReader] [writer0] stats1
  = (λ r, writer (world r.1))
    <$> Function b2 [leftReader; rightReader] [writer0] stats2.
Proof. intros Hix. unfold Function; simpl. by rewrite Hix. Qed.

(** C10. With an empty table the probe stream is thrown away unread by the
    handler: whatever its frames are, malformed ones included, none is
    handed to the decoder, no table lookup is made, the stream is consumed
    to its end and no probe-phase error is printed. *)
Theorem empty_table_drain_decodes_nothing leftReader rightReader writer0 indexes :
  table leftReader indexes = ∅ →
  let o := DoLocalHashAndJoinWith leftReader rightReader writer0 indexes in
  rightRest o = []
  ∧ frames_read rightStream (trace (world o)) = []
  ∧ (∀ e, JoinFailed e ∉ stdout (world o))
  ∧ EvDiscard rightStream (length rightReader) ∈ trace (world o).
Proof.
  intros Hm. rewrite table_spec in Hm. cbn zeta.
  rewrite DoLocalHashAndJoinWith_spec. cbn zeta.
  rewrite (proj2 (size_eqb_0_empty _) Hm); simpl.
  split; [done|]. split.
  { unfold frames_read. rewrite flat_map_app.
    fold (frames_read rightStream (build_trace indexes leftReader)).
    by rewrite build_trace_reads_no_probe_frame. }
  split; [|apply elem_of_app; right; by apply list_elem_of_singleton].
  intros e. destruct (stop_at _ _).2; simpl.
  - rewrite list_elem_of_singleton. congruence.
  - apply not_elem_of_nil.
Qed.

(** ** Further facts about the reference descriptions *)

Lemma probe_step_length indexes m input :
  length (probe_step indexes m input).1 ≤ 1.
Proof.
  unfold probe_step.
  destruct (DecodeRowKeysValues input indexes) as [[keys vals]|]; simpl; [|lia].
  destruct (EncodeRow keys) as [keyBytes|]; simpl; [|lia].
  destruct (m !! _) as [mapped|]; simpl; [|lia].
  destruct (EncodeRow _); simpl; lia.
Qed.

Lemma probe_run_length indexes m reader :
  length (probe_run indexes m reader).1 ≤ length reader.
Proof.
  induction reader as [|x rest IH]; simpl; [done|].
  pose proof (probe_step_length indexes m x) as Hx.
  destruct (probe_step indexes m x) as [o t].
  destruct (probe_refuses indexes x); simpl in *; [lia|].
  destruct (probe_run indexes m rest) as [os ts]; simpl in *.
  rewrite length_app. lia.
Qed.

Lemma probe_step_sound indexes m input encoded :
  encoded ∈ (probe_step indexes m input).1 →
  ∃ keys vals keyBytes mappedValues,
    DecodeRowKeysValues input indexes = Ok (keys, vals)
    ∧ EncodeRow keys = Ok keyBytes
    ∧ m !! String.string_of_list_byte keyBytes = Some mappedValues
    ∧ EncodeRow ((keys ++ vals) ++ mappedValues) = Ok encoded.
Proof.
  unfold probe_step.
  destruct (DecodeRowKeysValues input indexes) as [[keys vals]|]; simpl;
    [|by intros ?%elem_of_nil].
  destruct (EncodeRow keys) as [keyBytes|] eqn:He; simpl;
    [|by intros ?%elem_of_nil].
  destruct (m !! _) as [mapped|] eqn:Hm; simpl; [|by intros ?%elem_of_nil].
  destruct (EncodeRow ((keys ++ vals) ++ mapped)) as [out|] eqn:Hw; simpl;
    [|by intros ?%elem_of_nil].
  intros ->%list_elem_of_singleton. by exists keys, vals, keyBytes, mapped.
Qed.

Lemma probe_run_sound indexes m reader encoded :
  encoded ∈ (probe_run indexes m reader).1 →
  ∃ input, input ∈ reader ∧ encoded ∈ (probe_step indexes m input).1.
Proof.
  induction reader as [|x rest IH]; simpl; [by intros ?%elem_of_nil|].
  destruct (probe_step indexes m x) as [o t] eqn:Hx.
  destruct (probe_refuses indexes x); simpl.
  - intros H. exists x. rewrite Hx. split; [apply list_elem_of_here|done].
  - destruct (probe_run indexes m rest) as [os ts]; simpl in *.
    intros [H|H]%elem_of_app.
    + exists x. rewrite Hx. split; [apply list_elem_of_here|done].
    + destruct (IH H) as (input & Hin & Hstep).
      exists input. split; [by apply list_elem_of_further|done].
Qed.

Lemma probe_run_frames_read indexes m reader :
  frames_read rightStream (probe_run indexes m reader).2
    ++ (stop_at (probe_refuses indexes) reader).1 = reader.
Proof.
  assert (Hstep : ∀ x, frames_read rightStream (probe_step indexes m x).2 = []).
  { intros x. unfold probe_step.
    destruct (DecodeRowKeysValues x indexes) as [[keys vals]|]; [|done].
    destruct (EncodeRow keys) as [keyBytes|]; [|done]. simpl.
    destruct (m !! _) as [mapped|]; [|done].
    by destruct (EncodeRow _). }
  induction reader as [|x rest IH]; simpl; [done|].
  specialize (Hstep x).
  destruct (probe_step indexes m x) as [o t]; simpl in Hstep.
  destruct (probe_refuses indexes x); simpl.
  - by rewrite Hstep.
  - destruct (probe_run indexes m rest) as [os ts]; simpl in *.
    unfold frames_read in *. rewrite flat_map_app, Hstep. simpl.
    by rewrite IH.
Qed.

Lemma build_table_sound indexes reader m key vals :
  build_table indexes reader m !! key = Some vals →
  m !! key = Some vals
  ∨ ∃ input keyBytes,
      input ∈ reader
      ∧ genKeyBytesAndValues input indexes = Ok (keyBytes, vals)
      ∧ String.string_of_list_byte keyBytes = key.
Proof.
  revert m. induction reader as [|x rest IH]; intros m; simpl; [by left|].
  destruct (genKeyBytesAndValues x indexes) as [[keys v]|] eqn:Hx; [|by left].
  intros [H|(input & kb & Hin & Hg & Hk)]%IH.
  - destruct (decide (String.string_of_list_byte keys = key)) as [Heq|Hne].
    + rewrite Heq, lookup_insert_eq in H. injection H as <-.
      right. exists x, keys. split; [apply list_elem_of_here|done].
    + rewrite lookup_insert_ne in H by done. by left.
  - right. exists input, kb. split; [by apply list_elem_of_further|done].
Qed.

Lemma build_table_size indexes reader m :
  size (build_table indexes reader m) ≤ size m + length reader.
Proof.
  revert m. induction reader as [|x rest IH]; intros m; simpl; [lia|].
  destruct (genKeyBytesAndValues x indexes) as [[keys v]|]; [|lia].
  specialize (IH (<[String.string_of_list_byte keys := v]> m)).
  rewrite map_size_insert in IH.
  destruct (m !! _); simpl in IH; lia.
Qed.

Lemma build_table_union indexes reader m :
  build_table indexes reader m = build_table indexes reader ∅ ∪ m.
Proof.
  revert m. induction reader as [|x rest IH]; intros m; simpl.
  - by rewrite (left_id_L ∅ (∪)).
  - destruct (genKeyBytesAndValues x indexes) as [[keys v]|].
    + rewrite (IH (<[_ := v]> m)), (IH (<[_ := v]> ∅)).
      rewrite insert_empty, <- (assoc_L (∪)).
      by rewrite <- insert_union_singleton_l.
    + by rewrite (left_id_L ∅ (∪)).
Qed.

Lemma build_table_permutation indexes l1 l2 :
  l1 ≡ₚ l2 →
  forallb (well_formed indexes) l1 = true →
  forallb (well_formed indexes) l2 = true
  ∧ build_keys indexes l1 ≡ₚ build_keys indexes l2
  ∧ (NoDup (build_keys indexes l1) →
     ∀ m, build_table indexes l1 m = build_table indexes l2 m).
Proof.
  induction 1 as [|x l l' Hp IH|x y l|l l' l'' Hp1 IH1 Hp2 IH2]; simpl.
  - done.
  - intros [Hx Hl]%andb_prop. destruct (IH Hl) as (Hl' & Hk & Ht).
    rewrite Hx, Hl'. unfold well_formed in Hx.
    destruct (genKeyBytesAndValues x indexes) as [[keys v]|]; [|done].
    simpl. split; [done|]. split; [by constructor|].
    intros [_ Hnd]%NoDup_cons m. by apply Ht.
  - intros [Hy [Hx Hl]%andb_prop]%andb_prop. rewrite Hx, Hy, Hl.
    unfold well_formed in Hx, Hy.
    destruct (genKeyBytesAndValues x indexes) as [[kx vx]|]; [|done].
    destruct (genKeyBytesAndValues y indexes) as [[ky vy]|]; [|done].
    simpl. split; [done|]. split; [by constructor|].
    intros [Hne _]%NoDup_cons m.
    rewrite insert_insert_ne; [done|].
    intros Heq. apply Hne. rewrite Heq. apply list_elem_of_here.
  - intros Hl. destruct (IH1 Hl) as (Hl' & Hk1 & Ht1).
    destruct (IH2 Hl') as (Hl'' & Hk2 & Ht2).
    split; [done|]. split; [by etrans|].
    intros Hnd m. rewrite (Ht1 Hnd). apply Ht2. by rewrite <- Hk1.
Qed.

(** ** Further properties of the instruction *)

(** X1. A probe frame adds at most one frame to the output: the call writes
    no more frames than the probe stream holds. *)
Theorem output_at_most_one_row_per_probe_frame leftReader rightReader indexes :
  length (emitted leftReader rightReader indexes) ≤ length rightReader.
Proof.
  rewrite emitted_spec. destruct (Nat.eqb _ 0); simpl; [lia|].
  apply probe_run_length.
Qed.

(** X2. The join writes nothing of its own: every frame on the output is
    the encoding of the key and value fields of some frame of the probe
    stream followed by the value that the table holds for its key. *)
Theorem emitted_row_is_a_join leftReader rightReader indexes encoded :
  encoded ∈ emitted leftReader rightReader indexes →
  ∃ input keys vals keyBytes mappedValues,
    input ∈ rightReader
    ∧ DecodeRowKeysValues input indexes = Ok (keys, vals)
    ∧ EncodeRow keys = Ok keyBytes
    ∧ table leftReader indexes !! String.string_of_list_byte keyBytes
      = Some mappedValues
    ∧ EncodeRow ((keys ++ vals) ++ mappedValues) = Ok encoded.
Proof.
  rewrite emitted_spec. destruct (Nat.eqb _ 0); [by intros ?%elem_of_nil|].
  intros (input & Hin & Hstep)%probe_run_sound.
  destruct (probe_step_sound _ _ _ _ Hstep) as (keys & vals & kb & mv & H).
  by exists input, keys, vals, kb, mv.
Qed.

(** X3. The table holds nothing of its own: every entry is the key and the
    value of some frame of the build stream. *)
Theorem table_entry_comes_from_build_row leftReader indexes key vals :
  table leftReader indexes !! key = Some vals →
  ∃ input keyBytes,
    input ∈ leftReader
    ∧ genKeyBytesAndValues input indexes = Ok (keyBytes, vals)
    ∧ String.string_of_list_byte keyBytes = key.
Proof.
  rewrite table_spec. intros [H|H]%build_table_sound; [|done].
  by rewrite lookup_empty in H.
Qed.

(** X4. The table never has more entries than the build stream has
    frames. *)
Theorem table_size_bounded leftReader indexes :
  size (table leftReader indexes) ≤ length leftReader.
Proof.
  rewrite table_spec.
  pose proof (build_table_size indexes leftReader ∅) as H.
  by rewrite map_size_empty in H.
Qed.

(** X5. A frame of the probe stream that fails to decode ends the probe
    phase on the spot when the table is not empty: the frames after it stay
    unread, the output is what the frames before it produced, and the error
    is the last line printed. *)
Theorem probe_decode_error_stops_probe leftReader pre bad post writer0 indexes
    err :
  forallb (well_formed indexes) pre = true →
  DecodeRowKeysValues bad indexes = Err err →
  table leftReader indexes ≠ ∅ →
  let o := DoLocalHashAndJoinWith leftReader (pre ++ bad :: post)
             writer0 indexes in
  rightRest o = post
  ∧ writer (world o)
    = writer (world (DoLocalHashAndJoinWith leftReader pre writer0 indexes))
  ∧ last (stdout (world o)) = Some (JoinFailed (Errorf_input err bad)).
Proof.
  intros Hpre Hbad Hne. cbn zeta.
  assert (Hr : probe_refuses indexes bad = Some (Errorf_input err bad)).
  { unfold probe_refuses. by rewrite Hbad. }
  rewrite !DoLocalHashAndJoinWith_spec. cbn zeta. rewrite <- !table_spec.
  destruct (Nat.eqb (size (table leftReader indexes)) 0) eqn:Hsz.
  { by apply size_eqb_0_empty in Hsz. }
  rewrite (stop_at_refused (probe_refuses indexes) pre bad post _
             (well_formed_probe_accepts _ _ Hpre) Hr).
  rewrite (probe_run_app _ _ _ _ Hpre). simpl.
  rewrite Hr. unfold probe_step. rewrite Hbad. simpl.
  rewrite app_nil_r. split; [done|]. split; [done|]. by rewrite last_snoc.
Qed.

(** X6. A clean run: when every frame of both streams is accepted by its
    handler, both streams are read to their end and nothing is printed. *)
Theorem clean_run_consumes_everything leftReader rightReader writer0 indexes :
  forallb (well_formed indexes) leftReader = true →
  forallb (well_formed indexes) rightReader = true →
  let o := DoLocalHashAndJoinWith leftReader rightReader writer0 indexes in
  leftRest o = [] ∧ rightRest o = [] ∧ stdout (world o) = [].
Proof.
  intros Hl Hr. cbn zeta. rewrite DoLocalHashAndJoinWith_spec. cbn zeta.
  rewrite (stop_at_accepted _ _ (well_formed_build_accepts _ _ Hl)).
  rewrite (stop_at_accepted _ _ (well_formed_probe_accepts _ _ Hr)).
  by destruct (Nat.eqb _ 0).
Qed.

(** X7. The probe phase works frame by frame: against one build stream, the
    output for a probe stream that continues an accepted one is the output
    for the first part followed by the output for the rest. *)
Theorem probe_distributes_over_append leftReader right1 right2 indexes :
  forallb (well_formed indexes) right1 = true →
  emitted leftReader (right1 ++ right2) indexes
  = emitted leftReader right1 indexes ++ emitted leftReader right2 indexes.
Proof.
  intros H. rewrite !emitted_spec. destruct (Nat.eqb _ 0); [done|].
  by rewrite (probe_run_app _ _ _ _ H).
Qed.

(** X8. The build phase composes: the table of a build stream that continues
    an accepted one is the table of the continuation laid over the table of
    the first part, the entries of the continuation winning. *)
Theorem build_appends_override left1 left2 indexes :
  forallb (well_formed indexes) left1 = true →
  table (left1 ++ left2) indexes = table left2 indexes ∪ table left1 indexes.
Proof.
  intros H. rewrite !table_spec, (build_table_app _ _ _ _ H).
  apply build_table_union.
Qed.

(** X9. Replaying an accepted build stream a second time changes nothing in
    the table. *)
Theorem build_replay_is_idempotent leftReader indexes :
  forallb (well_formed indexes) leftReader = true →
  table (leftReader ++ leftReader) indexes = table leftReader indexes.
Proof.
  intros H. rewrite !table_spec, (build_table_app _ _ _ _ H).
  rewrite build_table_union. apply (idemp_L (∪)).
Qed.

(** X10. When the frames of the build stream are all accepted and carry
    pairwise distinct keys, their order does not matter: any rearrangement
    of the stream builds the same table and gives the same output. *)
Theorem build_order_irrelevant left1 left2 rightReader indexes :
  left1 ≡ₚ left2 →
  forallb (well_formed indexes) left1 = true →
  NoDup (build_keys indexes left1) →
  table left1 indexes = table left2 indexes
  ∧ emitted left1 rightReader indexes = emitted left2 rightReader indexes.
Proof.
  intros Hp Hwf Hnd.
  destruct (build_table_permutation _ _ _ Hp Hwf) as (_ & _ & Ht).
  assert (Heq : table left1 indexes = table left2 indexes).
  { rewrite !table_spec. by apply Ht. }
  split; [done|]. by rewrite !emitted_spec, Heq.
Qed.

(** X11. The probe phase sees the build stream only through the table: two
    build streams that leave the same table give the same output and stop
    the probe stream at the same place. *)
Theorem probe_sees_only_the_table left1 left2 rightReader writer0 indexes :
  table left1 indexes = table left2 indexes →
  writer (world (DoLocalHashAndJoinWith left1 rightReader writer0 indexes))
  = writer (world (DoLocalHashAndJoinWith left2 rightReader writer0 indexes))
  ∧ rightRest (DoLocalHashAndJoinWith left1 rightReader writer0 indexes)
    = rightRest (DoLocalHashAndJoinWith left2 rightReader writer0 indexes).
Proof.
  intros H. rewrite !DoLocalHashAndJoinWith_writer, !emitted_spec, H.
  split; [done|].
  rewrite !DoLocalHashAndJoinWith_spec. cbn zeta. rewrite <- !table_spec, H.
  by destruct (Nat.eqb _ 0).
Qed.

(** X12. The table is written by the build phase only: the table that a call
    ends with does not depend on the probe stream nor on the writer. *)
Theorem probe_never_writes_table leftReader right1 right2 writer1 writer2
    indexes :
  hashmap (world (DoLocalHashAndJoinWith leftReader right1 writer1 indexes))
  = hashmap (world (DoLocalHashAndJoinWith leftReader right2 writer2 indexes)).
Proof. by rewrite !DoLocalHashAndJoinWith_hashmap. Qed.

(** X13. With a table that is not empty, the frames handed to the probe
    handler are exactly the part of the probe stream that the call consumed:
    the probe stream is that part followed by the unread rest. *)
Theorem probe_reads_prefix leftReader rightReader writer0 indexes :
  table leftReader indexes ≠ ∅ →
  let o := DoLocalHashAndJoinWith leftReader rightReader writer0 indexes in
  rightReader = frames_read rightStream (trace (world o)) ++ rightRest o.
Proof.
  intros Hne. cbn zeta. rewrite DoLocalHashAndJoinWith_spec. cbn zeta.
  rewrite <- table_spec.
  destruct (Nat.eqb (size (table leftReader indexes)) 0) eqn:Hsz.
  { by apply size_eqb_0_empty in Hsz. }
  simpl. unfold frames_read. rewrite flat_map_app.
  fold (frames_read rightStream (build_trace indexes leftReader)).
  rewrite build_trace_reads_no_probe_frame. simpl.
  symmetry. apply probe_run_frames_read.
Qed.

(** X14. The run entry point needs two readers and one writer: it panics
    exactly when it is given fewer, and it never looks at a third reader or
    a second writer. *)
Theorem Function_uses_two_readers_one_writer (b : LocalHashAndJoinWith)
    readers writers stats :
  (Function b readers writers stats = None
   ↔ length readers < 2 ∨ length writers < 1)
  ∧ Function b readers writers stats
    = Function b (take 2 readers) (take 1 writers) stats.
Proof.
  unfold Function.
  destruct readers as [|r0 [|r1 rs]], writers as [|w0 ws]; simpl;
    (split; [split; [first [done|intros _; lia]|first [done|lia]]|done]).
Qed.

End Instruction.

Arguments Errorf_input {Field CodecError} err input.
Arguments Errorf_keys {Field CodecError} keys err.
Arguments SortFailed {Field CodecError} err.
Arguments JoinFailed {Field CodecError} err.
Arguments mkWorld {Field CodecError} hashmap writer stdout trace.
Arguments hashmap {Field CodecError} w.
Arguments writer {Field CodecError} w.
Arguments stdout {Field CodecError} w.
Arguments trace {Field CodecError} w.
Arguments mkOutcome {Field CodecError} leftRest rightRest world.
Arguments leftRest {Field CodecError} o.
Arguments rightRest {Field CodecError} o.
Arguments world {Field CodecError} o.
Arguments genKeyBytesAndValues {Field CodecError} DecodeRowKeysValues EncodeRow.
Arguments DoLocalHashAndJoinWith {Field CodecError} DecodeRowKeysValues EncodeRow.
Arguments Function {Field CodecError} DecodeRowKeysValues EncodeRow.
Arguments emitted {Field CodecError} DecodeRowKeysValues EncodeRow.
Arguments table {Field CodecError} DecodeRowKeysValues EncodeRow.
Arguments well_formed {Field CodecError} DecodeRowKeysValues EncodeRow.
Arguments no_row_with_key {Field CodecError} DecodeRowKeysValues EncodeRow.

(** ** The instruction on the reference codec *)

Import CountCodec.

Abbreviation run := (DoLocalHashAndJoinWith DecodeRowKeysValues EncodeRow).
Abbreviation runFunction := (Function DecodeRowKeysValues EncodeRow).

(** Scenario A: only the probe row with key "a" is joined. *)
Example scenario_A :
  writer (world (run buildA probeA [] [0%Z])) = [frame ["a"; x0a; x01]%byte].
Proof. vm_compute. reflexivity. Qed.

(** The trace of scenario A: the whole build side, then the probe side. *)
Example scenario_A_trace :
  trace (world (run buildA probeA [] [0%Z]))
  = [EvRead leftStream (frame ["a"; x01]%byte); EvStore (keyOf "a");
     EvRead leftStream (frame ["b"; x02]%byte); EvStore (keyOf "b")]
    ++ [EvRead rightStream (frame ["a"; x0a]%byte); EvLookup (keyOf "a");
        EvWrite (frame ["a"; x0a; x01]%byte);
        EvRead rightStream (frame ["c"; x1e]%byte); EvLookup (keyOf "c")].
Proof. vm_compute. reflexivity. Qed.

(** Scenario B: the table kept the value of the second build row. *)
Example scenario_B :
  writer (world (run buildB probeB [] [0%Z])) = [frame ["a"; x09; x02]%byte].
Proof. vm_compute. reflexivity. Qed.

(** Scenario C: the build phase stops on the malformed frame; the frame
    ("d",4) after it is never read, so the probe row ("d",9) finds nothing.
    The error is printed; there is no counter. *)
Example scenario_C :
  leftRest (run buildC probeC [] [0%Z]) = [frame ["d"; x04]%byte]
  ∧ hashmap (world (run buildC probeC [] [0%Z]))
    = <[keyOf "a" := [x01]]> (<[keyOf "b" := [x02]]> {[keyOf "c" := [x03]]})
  ∧ writer (world (run buildC probeC [] [0%Z])) = [frame ["c"; x09; x03]%byte]
  ∧ stdout (world (run buildC probeC [] [0%Z]))
    = [SortFailed (Errorf_input BadCount malformed)].
Proof. vm_compute. repeat split; reflexivity. Qed.

(** *** Instances of the properties *)

(** C1 fails on the code as it is stated. Both rows of [probeW] have their
    key in the table of [buildW], and the first one is read and decoded, but
    its joined row of 301 fields has no encoding: the call writes a single
    row, the one of the second probe row, and the output is not the output
    of the rows before the first probe row, a row for it, and the output of
    the rows after it. *)
Lemma probe_hit_writes_no_row :
  DecodeRowKeysValues (frame ("a"%byte :: repeat x02 100)) [0%Z]
  = Ok (["a"%byte], repeat x02 100)
  ∧ EncodeRow ["a"%byte] = Ok (frame ["a"%byte])
  ∧ table DecodeRowKeysValues EncodeRow buildW [0%Z] !! keyOf "a"
    = Some (repeat x01 200)
  ∧ table DecodeRowKeysValues EncodeRow buildW [0%Z] !! keyOf "b" = Some [x02]
  ∧ length probeW = 2%nat
  ∧ emitted DecodeRowKeysValues EncodeRow buildW probeW [0%Z]
    = [frame ["b"; x07; x02]%byte]
  ∧ ¬ (∃ row,
         writer (world (run buildW probeW [] [0%Z]))
         = writer (world (run buildW [] [] [0%Z]))
             ++ row :: emitted DecodeRowKeysValues EncodeRow buildW
                         [frame ["b"; x07]%byte] [0%Z]).
Proof.
  split; [vm_compute; reflexivity|].
  split; [vm_compute; reflexivity|].
  split; [vm_compute; reflexivity|].
  split; [vm_compute; reflexivity|].
  split; [reflexivity|].
  split; [vm_compute; reflexivity|].
  intros [row Hrow]. apply (f_equal length) in Hrow.
  rewrite length_app, length_cons in Hrow.
  vm_compute in Hrow. discriminate.
Qed.

Lemma probe_hit_emits_one_row_witness :
  table DecodeRowKeysValues EncodeRow buildA [0%Z] !! keyOf "a" = Some [x01]
  ∧ writer (world (run buildA probeD [] [0%Z]))
    = writer (world (run buildA [frame ["c"; x1e]%byte] [] [0%Z]))
        ++ frame ["a"; x0a; x01]%byte
        :: emitted DecodeRowKeysValues EncodeRow buildA
             [frame ["b"; x14]%byte] [0%Z].
Proof.
  split; [vm_compute; reflexivity|].
  apply (probe_hit_emits_one_row byte CodecError DecodeRowKeysValues EncodeRow
           buildA [frame ["c"; x1e]%byte] (frame ["a"; x0a]%byte)
           [frame ["b"; x14]%byte] [] [0%Z]
           ["a"%byte] [x0a] (frame ["a"%byte]) [x01]
           (frame ["a"; x0a; x01]%byte));
    vm_compute; reflexivity.
Defined.

Lemma build_last_write_wins_witness :
  hashmap (world (run buildL probeB [] [0%Z])) !! keyOf "a" = Some [x02]
  ∧ ∀ v, hashmap (world (run buildL probeB [] [0%Z])) !! keyOf "a" = Some v →
         v = [x02].
Proof.
  apply (build_last_write_wins byte CodecError DecodeRowKeysValues EncodeRow
           [frame ["a"; x01]; frame ["b"; x02]]%byte (frame ["a"; x02]%byte)
           [frame ["c"; x03]; malformed; frame ["a"; x05]]%byte
           probeB [] [0%Z] (frame ["a"%byte]) [x02]);
    vm_compute; reflexivity.
Defined.

Lemma probe_miss_emits_nothing_witness :
  table DecodeRowKeysValues EncodeRow buildA [0%Z] !! keyOf "c" = None
  ∧ writer (world (run buildA probeM [] [0%Z]))
    = writer (world (run buildA [frame ["a"; x0a]%byte] [] [0%Z]))
        ++ emitted DecodeRowKeysValues EncodeRow buildA
             [frame ["b"; x14]%byte] [0%Z].
Proof.
  split; [vm_compute; reflexivity|].
  apply (probe_miss_emits_nothing byte CodecError DecodeRowKeysValues EncodeRow
           buildA [frame ["a"; x0a]%byte] (frame ["c"; x1e]%byte)
           [frame ["b"; x14]%byte] [] [0%Z]
           ["c"%byte] [x1e] (frame ["c"%byte]));
    vm_compute; reflexivity.
Defined.


Lemma empty_table_drains_probe_witness :
  rightRest (run [] probeA [] [0%Z]) = []
  ∧ writer (world (run [] probeA [] [0%Z])) = []
  ∧ last (trace (world (run [] probeA [] [0%Z])))
    = Some (EvDiscard rightStream 2).
Proof.
  apply (empty_table_drains_probe byte CodecError DecodeRowKeysValues EncodeRow
           [] probeA [] [0%Z]).
  left. reflexivity.
Defined.

Lemma probe_survives_write_failure_witness :
  EncodeRow ((["a"%byte] ++ repeat x02 100) ++ repeat x01 200) = Err TooWide
  ∧ rightRest (run buildW probeW [] [0%Z])
    = rightRest (run buildW [frame ["b"; x07]%byte] [] [0%Z])
  ∧ stdout (world (run buildW probeW [] [0%Z]))
    = stdout (world (run buildW [frame ["b"; x07]%byte] [] [0%Z]))
  ∧ writer (world (run buildW probeW [] [0%Z]))
    = writer (world (run buildW [] [] [0%Z]))
        ++ emitted DecodeRowKeysValues EncodeRow buildW
             [frame ["b"; x07]%byte] [0%Z].
Proof.
  split; [vm_compute; reflexivity|].
  apply (probe_survives_write_failure byte CodecError DecodeRowKeysValues
           EncodeRow buildW [] (frame ("a"%byte :: repeat x02 100))
           [frame ["b"; x07]%byte] [] [0%Z]
           ["a"%byte] (repeat x02 100) (frame ["a"%byte]) (repeat x01 200)
           TooWide);
    vm_compute; reflexivity.
Defined.

(** The run behind the witness, evaluated: the first probe row matches, its
    joined row is too wide to encode, nothing is printed, and the second
    probe row is still read and joined. *)
Example write_failure_goes_unnoticed :
  frames_read rightStream (trace (world (run buildW probeW [] [0%Z]))) = probeW
  ∧ rightRest (run buildW probeW [] [0%Z]) = []
  ∧ stdout (world (run buildW probeW [] [0%Z])) = []
  ∧ writer (world (run buildW probeW [] [0%Z])) = [frame ["b"; x07; x02]%byte].
Proof. vm_compute. repeat split; reflexivity. Qed.

Lemma join_is_deterministic_witness :
  (λ r, writer (world r.1))
    <$> runFunction (NewLocalHashAndJoinWith [0%Z]) [buildA; probeA] [[]] zeroStats
  = (λ r, writer (world r.1))
    <$> runFunction (NewLocalHashAndJoinWith [0%Z]) [buildA; probeA] [[]]
          (mkStats 2 2 1 0 0).
Proof.
  apply (join_is_deterministic byte CodecError DecodeRowKeysValues EncodeRow
           (NewLocalHashAndJoinWith [0%Z]) (NewLocalHashAndJoinWith [0%Z])
           buildA probeA [] zeroStats (mkStats 2 2 1 0 0)).
  reflexivity.
Defined.

Lemma empty_table_drain_decodes_nothing_witness :
  table DecodeRowKeysValues EncodeRow [malformed] [0%Z] = ∅
  ∧ rightRest (run [malformed] probeJunk [] [0%Z]) = []
  ∧ frames_read rightStream (trace (world (run [malformed] probeJunk [] [0%Z])))
    = []
  ∧ (∀ e, JoinFailed e ∉ stdout (world (run [malformed] probeJunk [] [0%Z])))
  ∧ EvDiscard rightStream 3 ∈ trace (world (run [malformed] probeJunk [] [0%Z])).
Proof.
  split; [vm_compute; reflexivity|].
  apply (empty_table_drain_decodes_nothing byte CodecError DecodeRowKeysValues
           EncodeRow [malformed] probeJunk [] [0%Z]).
  vm_compute; reflexivity.
Defined.

(** C6 fails on the code: the build phase of this run stops on a decode
    error, and the sink comes back with its error counts still at zero. The
    only report of the error is the line on standard output. *)
Lemma build_error_not_counted :
  DecodeRowKeysValues malformed [0%Z] = Err BadCount
  ∧ snd <$> runFunction (NewLocalHashAndJoinWith [0%Z]) [buildC; probeC] [[]]
              zeroStats
    = Some zeroStats
  ∧ (λ r, stdout (world r.1))
      <$> runFunction (NewLocalHashAndJoinWith [0%Z]) [buildC; probeC] [[]]
            zeroStats
    = Some [SortFailed (Errorf_input BadCount malformed)]
  ∧ ¬ (∃ o stats',
         runFunction (NewLocalHashAndJoinWith [0%Z]) [buildC; probeC] [[]]
           zeroStats = Some (o, stats')
         ∧ buildErrors stats' ≠ buildErrors zeroStats).
Proof.
  split; [vm_compute; reflexivity|].
  split; [vm_compute; reflexivity|].
  split; [vm_compute; reflexivity|].
  intros (o & stats' & H & Hne). apply Hne.
  apply (f_equal (fmap snd)) in H. vm_compute in H.
  injection H as <-. reflexivity.
Qed.

Lemma errors_printed_stats_untouched_witness :
  ∃ o stats',
    runFunction (NewLocalHashAndJoinWith [0%Z]) [buildC; probeE] [[]] zeroStats
      = Some (o, stats')
    ∧ stats' = zeroStats
    ∧ SortFailed (Errorf_input BadCount malformed) ∈ stdout (world o)
    ∧ JoinFailed (Errorf_input BadCount malformed) ∈ stdout (world o).
Proof.
  eexists _, _. split; [reflexivity|].
  destruct (errors_printed_stats_untouched byte CodecError DecodeRowKeysValues
              EncodeRow (NewLocalHashAndJoinWith [0%Z]) [buildC; probeE] [[]]
              buildC probeE zeroStats _ _ eq_refl eq_refl eq_refl)
    as (Hs & Hb & Hp & _).
  split; [exact Hs|]. split.
  - apply (Hb buildC_pre
             malformed [frame ["d"; x04]%byte] BadCount); reflexivity.
  - apply (Hp [frame ["c"; x09]%byte] malformed [frame ["a"; x07]%byte] BadCount);
      [reflexivity|reflexivity| |reflexivity].
    vm_compute. discriminate.
Defined.

(** *** Instances of the further properties *)

Lemma emitted_row_is_a_join_witness :
  frame ["a"; x0a; x01]%byte ∈ emitted DecodeRowKeysValues EncodeRow buildA probeA [0%Z]
  ∧ ∃ input keys vals keyBytes mappedValues,
      input ∈ probeA
      ∧ DecodeRowKeysValues input [0%Z] = Ok (keys, vals)
      ∧ EncodeRow keys = Ok keyBytes
      ∧ table DecodeRowKeysValues EncodeRow buildA [0%Z]
          !! String.string_of_list_byte keyBytes = Some mappedValues
      ∧ EncodeRow ((keys ++ vals) ++ mappedValues)
        = Ok (frame ["a"; x0a; x01]%byte).
Proof.
  assert (Hin : frame ["a"; x0a; x01]%byte
                ∈ emitted DecodeRowKeysValues EncodeRow buildA probeA [0%Z]).
  { vm_compute. apply list_elem_of_here. }
  split; [exact Hin|].
  exact (emitted_row_is_a_join byte CodecError DecodeRowKeysValues EncodeRow
           buildA probeA [0%Z] _ Hin).
Defined.

Lemma table_entry_comes_from_build_row_witness :
  ∃ input keyBytes,
    input ∈ buildB
    ∧ genKeyBytesAndValues DecodeRowKeysValues EncodeRow input [0%Z]
      = Ok (keyBytes, [x02])
    ∧ String.string_of_list_byte keyBytes = keyOf "a".
Proof.
  apply (table_entry_comes_from_build_row byte CodecError DecodeRowKeysValues
           EncodeRow buildB [0%Z] (keyOf "a") [x02]).
  vm_compute. reflexivity.
Defined.

Lemma probe_decode_error_stops_probe_witness :
  rightRest (run buildA probeF [] [0%Z]) = [frame ["b"; x14]%byte]
  ∧ writer (world (run buildA probeF [] [0%Z]))
    = writer (world (run buildA [frame ["a"; x0a]%byte] [] [0%Z]))
  ∧ last (stdout (world (run buildA probeF [] [0%Z])))
    = Some (JoinFailed (Errorf_input BadCount malformed)).
Proof.
  apply (probe_decode_error_stops_probe byte CodecError DecodeRowKeysValues
           EncodeRow buildA [frame ["a"; x0a]%byte] malformed
           [frame ["b"; x14]%byte] [] [0%Z] BadCount);
    [vm_compute; reflexivity|vm_compute; reflexivity|vm_compute; discriminate].
Defined.

Lemma clean_run_consumes_everything_witness :
  leftRest (run buildA probeA [] [0%Z]) = []
  ∧ rightRest (run buildA probeA [] [0%Z]) = []
  ∧ stdout (world (run buildA probeA [] [0%Z])) = [].
Proof.
  apply (clean_run_consumes_everything byte CodecError DecodeRowKeysValues
           EncodeRow buildA probeA [] [0%Z]); vm_compute; reflexivity.
Defined.

Lemma probe_distributes_over_append_witness :
  emitted DecodeRowKeysValues EncodeRow buildA (probeA ++ probeD) [0%Z]
  = emitted DecodeRowKeysValues EncodeRow buildA probeA [0%Z]
      ++ emitted DecodeRowKeysValues EncodeRow buildA probeD [0%Z].
Proof.
  apply (probe_distributes_over_append byte CodecError DecodeRowKeysValues
           EncodeRow buildA probeA probeD [0%Z]).
  vm_compute. reflexivity.
Defined.

Lemma build_appends_override_witness :
  table DecodeRowKeysValues EncodeRow (buildA ++ buildB) [0%Z]
  = table DecodeRowKeysValues EncodeRow buildB [0%Z]
      ∪ table DecodeRowKeysValues EncodeRow buildA [0%Z].
Proof.
  apply (build_appends_override byte CodecError DecodeRowKeysValues EncodeRow
           buildA buildB [0%Z]).
  vm_compute. reflexivity.
Defined.

Lemma build_replay_is_idempotent_witness :
  table DecodeRowKeysValues EncodeRow (buildB ++ buildB) [0%Z]
  = table DecodeRowKeysValues EncodeRow buildB [0%Z].
Proof.
  apply (build_replay_is_idempotent byte CodecError DecodeRowKeysValues
           EncodeRow buildB [0%Z]).
  vm_compute. reflexivity.
Defined.

Lemma build_order_irrelevant_witness :
  table DecodeRowKeysValues EncodeRow buildA [0%Z]
  = table DecodeRowKeysValues EncodeRow buildA_swapped [0%Z]
  ∧ emitted DecodeRowKeysValues EncodeRow buildA probeD [0%Z]
    = emitted DecodeRowKeysValues EncodeRow buildA_swapped probeD [0%Z].
Proof.
  apply (build_order_irrelevant byte CodecError DecodeRowKeysValues EncodeRow
           buildA buildA_swapped probeD [0%Z]).
  - apply perm_swap.
  - vm_compute. reflexivity.
  - apply (bool_decide_unpack _). vm_compute. exact I.
Defined.

Lemma probe_sees_only_the_table_witness :
  writer (world (run buildB probeB [] [0%Z]))
  = writer (world (run [frame ["a"; x02]%byte] probeB [] [0%Z]))
  ∧ rightRest (run buildB probeB [] [0%Z])
    = rightRest (run [frame ["a"; x02]%byte] probeB [] [0%Z]).
Proof.
  apply (probe_sees_only_the_table byte CodecError DecodeRowKeysValues EncodeRow
           buildB [frame ["a"; x02]%byte] probeB [] [0%Z]).
  vm_compute. reflexivity.
Defined.

Lemma probe_reads_prefix_witness :
  probeF
  = frames_read rightStream (trace (world (run buildA probeF [] [0%Z])))
      ++ rightRest (run buildA probeF [] [0%Z]).
Proof.
  apply (probe_reads_prefix byte CodecError DecodeRowKeysValues EncodeRow
           buildA probeF [] [0%Z]).
  vm_compute. discriminate.
Defined.

(** * Properties of thrift.TSSLSocket *)
Module thrift_properties.
Import thrift.

Section Properties.
Context `{Network}.

Lemma VersionTLS10_not_0 : VersionTLS10 ≠ 0%Z.
Proof. done. Qed.

(** X15. The constructor writes through the configuration pointer: after
    the call the caller's configuration has a minimum version that is not 0,
    TLS 1.0 when it was 0 and the old one otherwise; its other fields and
    the other configurations are untouched, the socket keeps the pointer,
    and a second construction from it changes nothing more. *)
Theorem NewTSSLSocketTimeout_sets_min_version hostPort l c connectTimeout
    socketTimeout (configs : gmap positive (Config ConfigRest)) :
  configs !! l = Some c →
  ∃ p configs',
    NewTSSLSocketTimeout hostPort (Some l) connectTimeout socketTimeout configs
      = Some (p, configs')
    ∧ cfg p = Some l
    ∧ (∃ c', configs' !! l = Some c'
             ∧ MinVersion c' ≠ 0%Z
             ∧ otherFields c' = otherFields c
             ∧ (MinVersion c ≠ 0%Z → c' = c)
             ∧ (MinVersion c = 0%Z → MinVersion c' = VersionTLS10))
    ∧ (∀ l', l' ≠ l → configs' !! l' = configs !! l')
    ∧ NewTSSLSocketTimeout hostPort (Some l) connectTimeout socketTimeout configs'
      = Some (p, configs').
Proof.
  intros Hc. unfold NewTSSLSocketTimeout. rewrite Hc.
  destruct (Z.eqb (MinVersion c) 0) eqn:Hz.
  - apply Z.eqb_eq in Hz. eexists _, _. split; [reflexivity|].
    split; [done|]. split; [|split].
    + eexists. rewrite lookup_insert_eq. split; [done|]. simpl.
      split; [apply VersionTLS10_not_0|]. split; [done|]. split; [lia|done].
    + intros l' Hne. by rewrite lookup_insert_ne.
    + by rewrite lookup_insert_eq.
  - apply Z.eqb_neq in Hz. eexists _, _. split; [reflexivity|].
    split; [done|]. split; [|split].
    + exists c. split; [done|]. split; [done|]. split; [done|]. split; [done|lia].
    + done.
    + rewrite Hc. apply Z.eqb_neq in Hz. by rewrite Hz.
Qed.

(** X16. The constructors dereference the configuration: [NewTSSLSocket]
    returns a socket exactly when it is given a pointer to a configuration,
    and panics on nil. *)
Theorem NewTSSLSocket_needs_config hostPort cfg
    (configs : gmap positive (Config ConfigRest)) :
  is_Some (NewTSSLSocket hostPort cfg configs)
  ↔ ∃ l, cfg = Some l ∧ is_Some (configs !! l).
Proof.
  unfold NewTSSLSocket, NewTSSLSocketTimeout. split.
  - destruct cfg as [l|]; [|by intros [? ?]].
    destruct (configs !! l) as [c|] eqn:Hc; [|by intros [? ?]].
    intros _. exists l. by rewrite Hc.
  - intros (l & -> & [c Hc]). by rewrite Hc.
Qed.

(** X17. [Close] forgets the connection only when closing it worked: after
    a [Close] that returns nil the socket holds no connection and a further
    [Close] returns nil without touching the network; after a [Close] that
    fails the socket is as it was. *)
Theorem Close_forgets_conn_on_success p st :
  match Close p st with
  | (None, p', st') => conn p' = None ∧ Close p' st' = (None, p', st')
  | (Some _, p', _) => p' = p
  end.
Proof.
  unfold Close. destruct (conn p) as [c|] eqn:Hc.
  - destruct (connClose c (net st)) as [[e|] n]; simpl; [done|].
    by split.
  - rewrite Hc. by split.
Qed.

(** X18. Without a host and port, [Open] checks before it dials: with a
    connection that is still valid, no address, or an address whose network
    name or string is empty, it fails and changes neither the socket nor the
    network, and the failure is ALREADY_OPEN exactly when the connection is
    valid. *)
Theorem Open_without_hostPort_fails_early p st :
  hostPort p = ""%string →
  isValid (conn p) (net st) = true
  ∨ addr p = None
  ∨ (∃ a, addr p = Some a
          ∧ (addrNetwork a = ""%string ∨ addrString a = ""%string)) →
  ∃ t msg,
    Open p st = (Some (NewTTransportException t msg), p, st)
    ∧ (t = ALREADY_OPEN ↔ isValid (conn p) (net st) = true).
Proof.
  intros Hh Hbad. unfold Open. rewrite Hh. simpl.
  destruct (isValid (conn p) (net st)) eqn:Hv.
  { eexists _, _. split; [reflexivity|done]. }
  destruct Hbad as [?|[Ha|(a & Ha & Hs)]]; [done| |]; rewrite Ha.
  { eexists _, _. split; [reflexivity|]. split; [done|done]. }
  destruct (Nat.eqb (String.length (addrNetwork a)) 0) eqn:Hn.
  { eexists _, _. split; [reflexivity|]. split; [done|done]. }
  destruct (Nat.eqb (String.length (addrString a)) 0) eqn:Hs'.
  { eexists _, _. split; [reflexivity|]. split; [done|done]. }
  exfalso. destruct Hs as [Hs|Hs]; rewrite Hs in *; simpl in *; done.
Qed.

(** X19. With a host and port, [Open] dials it over tcp whatever the socket
    holds: it never answers ALREADY_OPEN, the connection of the socket
    becomes what the dial returned, also when the dial failed, and it fails
    exactly when the dial did. *)
Theorem Open_with_hostPort_always_dials p st :
  hostPort p ≠ ""%string →
  let d := DialWithDialer (connectTimeout p) "tcp" (hostPort p)
             (cfg p ≫= λ l, configs st !! l) (net st) in
  let '(err, p', st') := Open p st in
  conn p' = d.1.1
  ∧ net st' = d.2
  ∧ (is_Some err ↔ is_Some d.1.2)
  ∧ ∀ msg, err ≠ Some (NewTTransportException ALREADY_OPEN msg).
Proof.
  intros Hh. cbn zeta. unfold Open.
  assert (Hne : String.eqb (hostPort p) "" = false) by by apply String.eqb_neq.
  rewrite Hne. simpl. unfold dial.
  destruct (DialWithDialer _ _ _ _ _) as [[c [e|]] n]; simpl.
  - split; [done|]. split; [done|]. split; [split; eauto|]. intros msg. congruence.
  - split; [done|]. split; [done|]. split; [split; intros [? ?]; done|done].
Qed.

(** X20. [Open] and [Close] change the connection of the socket and nothing
    else: host and port, address, configuration pointer and timeouts are
    kept, and so is the store of configurations. *)
Theorem Open_Close_change_only_conn p st :
  (let '(_, p', st') := Open p st in
   p' = set_conn p (conn p') ∧ configs st' = configs st)
  ∧ (let '(_, p', st') := Close p st in
     p' = set_conn p (conn p') ∧ configs st' = configs st).
Proof.
  assert (Hid : p = set_conn p (conn p)) by by destruct p.
  assert (Hdial : ∀ network address,
            let '(_, p', st') := dial p network address st in
            p' = set_conn p (conn p') ∧ configs st' = configs st).
  { intros network address. unfold dial.
    by destruct (DialWithDialer _ _ _ _ _) as [[c e] n]. }
  split.
  - unfold Open. destruct (negb _); [apply Hdial|].
    destruct (isValid _ _); [done|].
    destruct (addr p) as [a|]; [|done].
    destruct (Nat.eqb _ 0); [done|]. destruct (Nat.eqb _ 0); [done|].
    apply Hdial.
  - unfold Close. destruct (conn p) as [c|] eqn:Hc.
    + destruct (connClose c (net st)) as [[e|] n]; simpl; [|done].
      split; [|done]. by rewrite Hc.
    + split; [|done]. by rewrite Hc.
Qed.

(** X22. A socket made by [NewTSSLSocket] has no socket timeout, and [Open]
    does not give it one: once it holds a connection, the deadline that it
    pushes before a read or a write is the zero time, whatever the clock
    says. *)
Theorem NewTSSLSocket_pushes_no_deadline hostPort cfg
    (configs configs' : gmap positive (Config ConfigRest)) p0 st c n :
  NewTSSLSocket hostPort cfg configs = Some (p0, configs') →
  conn (Open p0 st).1.2 = Some c →
  pushDeadline (Open p0 st).1.2 true false n = Some (SetReadDeadline c zeroTime n)
  ∧ pushDeadline (Open p0 st).1.2 false true n
    = Some (SetWriteDeadline c zeroTime n).
Proof.
  intros Hnew Hc.
  assert (Ht : socketTimeout p0 = 0%Z).
  { unfold NewTSSLSocket, NewTSSLSocketTimeout in Hnew.
    destruct cfg as [l|]; [|done]. destruct (configs !! l); [|done].
    by injection Hnew as <- _. }
  pose proof (Open_Close_change_only_conn p0 st) as [Ho _].
  destruct (Open p0 st) as [[err p1] st1]. simpl in *.
  destruct Ho as [Hp _].
  unfold pushDeadline. rewrite Hc, Hp. simpl. by rewrite Ht.
Qed.

(** X23. When [isValid] answers false on nil, a socket that was closed
    with success refuses to read: [Read] returns 0 with NOT_OPEN and leaves
    the network as [Close] left it. *)
Theorem Read_after_Close_is_not_open p buflen st p' st' :
  (∀ n, isValid None n = false) →
  Close p st = (None, p', st') →
  Read p' buflen st'
  = Some ((0%nat, [], Some (NewTTransportException NOT_OPEN "Connection not open")),
          st').
Proof.
  intros Hnil Hclose.
  assert (Hc : conn p' = None).
  { unfold Close in Hclose. destruct (conn p) as [c|] eqn:Hcp.
    - destruct (connClose c (net st)) as [[e|] n]; [done|].
      by injection Hclose as <- _.
    - injection Hclose as <- _. done. }
  unfold Read. by rewrite Hc, Hnil.
Qed.

End Properties.

#[local] Existing Instance loop.

Lemma NewTSSLSocketTimeout_sets_min_version_witness :
  ∃ p configs',
    NewTSSLSocketTimeout "example.org:9090" (Some 1%positive) 5 7 loopConfigs
      = Some (p, configs')
    ∧ cfg p = Some 1%positive
    ∧ (∃ c', configs' !! 1%positive = Some c'
             ∧ MinVersion c' ≠ 0%Z
             ∧ otherFields c' = tt
             ∧ (0 ≠ 0 → c' = mkConfig 0 tt)%Z
             ∧ (0 = 0 → MinVersion c' = VersionTLS10)%Z)
    ∧ (∀ l', l' ≠ 1%positive → configs' !! l' = loopConfigs !! l')
    ∧ NewTSSLSocketTimeout "example.org:9090" (Some 1%positive) 5 7 configs'
      = Some (p, configs').
Proof.
  apply (@NewTSSLSocketTimeout_sets_min_version loop "example.org:9090" 1%positive
           (mkConfig 0 tt) 5 7 loopConfigs).
  vm_compute. reflexivity.
Defined.

Lemma Open_without_hostPort_fails_early_witness :
  ∃ t msg,
    Open sockBare loopState = (Some (NewTTransportException t msg), sockBare, loopState)
    ∧ (t = ALREADY_OPEN ↔ isValid (conn sockBare) (net loopState) = true).
Proof.
  apply (@Open_without_hostPort_fails_early loop sockBare loopState).
  - reflexivity.
  - right. left. reflexivity.
Defined.

Lemma Open_with_hostPort_always_dials_witness :
  conn (Open sockOpen loopStateOpen).1.2 = Some 1%nat
  ∧ live (net (Open sockOpen loopStateOpen).2) = [1%nat; 0%nat]
  ∧ (Open sockOpen loopStateOpen).1.1 = None.
Proof.
  pose proof (@Open_with_hostPort_always_dials loop sockOpen loopStateOpen) as Hw.
  assert (Hh : hostPort sockOpen ≠ ""%string) by discriminate.
  specialize (Hw Hh). vm_compute in Hw. destruct Hw as (Hc & Hn & Herr & _).
  split; [vm_compute; exact Hc|]. split; [exact (f_equal live Hn)|].
  vm_compute. destruct (decide (is_Some (@None string))) as [[? ?]|_]; done.
Defined.

Lemma NewTSSLSocket_pushes_no_deadline_witness :
  pushDeadline (Open sockHost loopState).1.2 true false (mkLoopNet [0%nat] 1)
  = Some (SetReadDeadline 0%nat zeroTime (mkLoopNet [0%nat] 1))
  ∧ pushDeadline (Open sockHost loopState).1.2 false true (mkLoopNet [0%nat] 1)
    = Some (SetWriteDeadline 0%nat zeroTime (mkLoopNet [0%nat] 1)).
Proof.
  apply (@NewTSSLSocket_pushes_no_deadline loop "example.org:9090" (Some 1%positive)
           loopConfigs (<[1%positive := mkConfig VersionTLS10 tt]> loopConfigs)
           sockHost loopState 0%nat (mkLoopNet [0%nat] 1));
    vm_compute; reflexivity.
Defined.

Lemma Read_after_Close_is_not_open_witness :
  Read (set_conn sockOpen None) 16 (mkState loopConfigs (mkLoopNet [] 1))
  = Some ((0%nat, [], Some (NewTTransportException NOT_OPEN "Connection not open")),
          mkState loopConfigs (mkLoopNet [] 1)).
Proof.
  apply (@Read_after_Close_is_not_open loop sockOpen 16 loopStateOpen).
  - reflexivity.
  - vm_compute. reflexivity.
Defined.

End thrift_properties.
